(** * discord-player: Track, VoiceUtils and Player

    A shallow embedding of
    - [src/Structures/Track.ts]: the markdown escape of a track title and
      the [durationMS] getter,
    - [src/VoiceInterface/VoiceUtils.ts]: the dispatcher cache,
    - the [Player] class (the source file whose name is not recorded; it
      is the module the other two import as [Player]): the queue table,
      [search] and [emit],
    with the properties the specification states about them.

    JavaScript strings are sequences of code units; every marker the code
    looks at is an ASCII character and every other code unit is opaque to
    it, so a text is a [string] here.  Numbers are followed where double
    arithmetic is exact (integers up to 2^53 in magnitude, and NaN); see
    [Js.number]. *)

From Stdlib Require Import ZArith Ascii String Lia.
From stdpp Require Import gmap strings list.

Local Open Scope string_scope.

(** ** The JavaScript built-ins the sources call *)

Module Js.

(** A numeric value.  The sources compute in IEEE-754 doubles, and the
    model follows them where doubles are exact.  [Exact z] is the integer
    z, of magnitude at most 2^53: every such integer is a double, and a sum
    or a product of two of them whose value is again such an integer is
    computed without rounding (a zero of either sign is [Exact 0]).  [NaN]
    is NaN.  [Beyond] is a value the model does not determine: a number
    past 2^53 in magnitude, which may have been rounded, an infinity, or
    what arithmetic makes of these, a NaN included.  So what the model
    gives as [Exact z] or as [NaN] is what the code computes, and [Beyond]
    says nothing about it. *)
Inductive number : Type :=
| Exact (z : Z)
| NaN
| Beyond.

Definition safe (z : Z) : bool := (Z.abs z <=? 2 ^ 53)%Z.

(** The number of an integer value. *)
Definition of_Z (z : Z) : number := if safe z then Exact z else Beyond.

(** [a * b]: NaN when an operand is NaN. *)
Definition mul (a b : number) : number :=
  match a, b with
  | NaN, _ | _, NaN => NaN
  | Exact x, Exact y => of_Z (x * y)
  | _, _ => Beyond
  end.

(** [a + b]: NaN when an operand is NaN. *)
Definition add (a b : number) : number :=
  match a, b with
  | NaN, _ | _, NaN => NaN
  | Exact x, Exact y => of_Z (x + y)
  | _, _ => Beyond
  end.

Definition head (s : string) : option ascii :=
  match s with
  | EmptyString => None
  | String c _ => Some c
  end.

Fixpoint drop (n : nat) (s : string) : string :=
  match n, s with
  | O, _ => s
  | S k, String _ rest => drop k rest
  | S _, EmptyString => EmptyString
  end.

(** A negated one-character class next to an anchor: the lookbehind
    [(?<=^|[^c])] on the unit before the position and the lookahead
    [(?=[^c]|$)] on the unit after the match both accept that there is no
    unit there and that there is a unit other than c. *)
Definition not_char (c : ascii) (o : option ascii) : bool :=
  match o with
  | None => true
  | Some d => negb (Ascii.eqb d c)
  end.

(** One attempt of a regular expression at one position of the subject.
    [prev] is the code unit before the position ([None] at index 0),
    the string is the subject from the position on.  A match gives the
    number of code units it consumes and the text that replaces them; the
    first component threads the counter a replacer callback closes over. *)
Definition matcher (St : Type) : Type :=
  St -> option ascii -> string -> option (nat * string * St).

(** [String.prototype.replace] with a global regular expression: matches
    are taken leftmost first, never overlapping; the units between two
    matches are copied.  After an empty match the search resumes one unit
    further (AdvanceStringIndex), and an empty match is still tried at the
    end of the subject.  [skip] counts the units of the current match that
    are still to be passed over. *)
Fixpoint replace_from {St : Type} (m : matcher St) (st : St)
    (prev : option ascii) (skip : nat) (text : string) : string :=
  match skip with
  | S k =>
      match text with
      | EmptyString => EmptyString
      | String c rest => replace_from m st (Some c) k rest
      end
  | O =>
      match m st prev text with
      | Some (n, repl, st') =>
          repl ++
          match text with
          | EmptyString => EmptyString
          | String c rest =>
              match n with
              | O => String c (replace_from m st' (Some c) 0 rest)
              | S k => replace_from m st' (Some c) k rest
              end
          end
      | None =>
          match text with
          | EmptyString => EmptyString
          | String c rest => String c (replace_from m st (Some c) 0 rest)
          end
      end
  end.

Definition replace_all {St : Type} (m : matcher St) (init : St)
    (text : string) : string :=
  replace_from m init None 0 text.

(** A separator attempt for [split]: the length of the separator matched
    at the position, if any. *)
Definition separator : Type := option ascii -> string -> option nat.

(** [String.prototype.split]: the piece that starts at the position and
    the pieces after it.  Both separators of the source match at least one
    unit, so an empty match is no separator. *)
Fixpoint split_from (sep : separator) (prev : option ascii) (skip : nat)
    (text : string) : string * list string :=
  match text with
  | EmptyString => (EmptyString, [])
  | String c rest =>
      match skip with
      | S k => split_from sep (Some c) k rest
      | O =>
          match sep prev text with
          | Some (S k) =>
              let '(p, ps) := split_from sep (Some c) k rest in
              (EmptyString, p :: ps)
          | _ =>
              let '(p, ps) := split_from sep (Some c) 0 rest in
              (String c p, ps)
          end
      end
  end.

Definition split (sep : separator) (text : string) : list string :=
  let '(p, ps) := split_from sep None 0 text in p :: ps.

(** A string separator: [text.split(s)]. *)
Definition sep_string (s : string) : separator :=
  fun _ text => if String.prefix s text then Some (String.length s) else None.

(** [Array.prototype.join]. *)
Definition join (sep : string) (parts : list string) : string :=
  String.concat sep parts.

(** *** parseInt *)

Definition code (c : ascii) : Z := Z.of_nat (nat_of_ascii c).

(** StrWhiteSpaceChar, as far as one-byte code units go. *)
Definition is_whitespace (c : ascii) : bool :=
  let n := code c in
  ((9 <=? n) && (n <=? 13) || (n =? 32) || (n =? 160))%Z.

Fixpoint trim_start (s : string) : string :=
  match s with
  | String c rest => if is_whitespace c then trim_start rest else s
  | EmptyString => EmptyString
  end.

Definition digit_value (radix : Z) (c : ascii) : option Z :=
  let n := code c in
  let v :=
    if ((48 <=? n) && (n <=? 57))%Z then Some (n - 48)%Z
    else if ((97 <=? n) && (n <=? 122))%Z then Some (n - 87)%Z
    else if ((65 <=? n) && (n <=? 90))%Z then Some (n - 55)%Z
    else None in
  match v with
  | Some d => if (d <? radix)%Z then Some d else None
  | None => None
  end.

(** The value of the longest prefix of digits; [acc] is [None] until a
    digit has been read. *)
Fixpoint parse_digits (radix : Z) (acc : option Z) (s : string) : option Z :=
  match s with
  | String c rest =>
      match digit_value radix c with
      | Some d => parse_digits radix (Some (default 0%Z acc * radix + d)%Z) rest
      | None => acc
      end
  | EmptyString => acc
  end.

(** [parseInt(s)] with no radix argument: leading white space, a sign, a
    hexadecimal prefix, then the digits; NaN when there is no digit, and
    the number of the integer the digits write otherwise. *)
Definition parseInt (s : string) : number :=
  let s1 := trim_start s in
  let negative := String.prefix "-" s1 in
  let s2 := if String.prefix "-" s1 || String.prefix "+" s1 then drop 1 s1 else s1 in
  let hex := String.prefix "0x" s2 || String.prefix "0X" s2 in
  let v := if hex then parse_digits 16 None (drop 2 s2) else parse_digits 10 None s2 in
  match v with
  | Some n => of_Z (if negative then - n else n)
  | None => NaN
  end.

End Js.

(** ** Effects: an object state, and a call that returns or throws *)

Module Eff.

Inductive Error : Type :=
| TypeError (message : string)
| PlayerError (message : string) (statusCode : string)
| Rejection (reason : string).

(** How a call ends; for an async function [Thrown] is the rejection of
    the promise it returns. *)
Inductive Outcome (A : Type) : Type :=
| Returned (a : A)
| Thrown (e : Error).

Arguments Returned {A} a.
Arguments Thrown {A} e.

(** A computation over a state [St]. *)
Definition M (St A : Type) : Type := St -> Outcome A * St.

Definition ret {St A : Type} (a : A) : M St A := fun s => (Returned a, s).

Definition throw {St A : Type} (e : Error) : M St A := fun s => (Thrown e, s).

Definition bind {St A B : Type} (c : M St A) (k : A -> M St B) : M St B :=
  fun s =>
    match c s with
    | (Returned a, s') => k a s'
    | (Thrown e, s') => (Thrown e, s')
    end.

Definition modify {St : Type} (f : St -> St) : M St unit :=
  fun s => (Returned tt, f s).

Fixpoint mapM {St A B : Type} (f : A -> M St B) (l : list A) : M St (list B) :=
  match l with
  | [] => ret []
  | x :: rest =>
      bind (f x) (fun y => bind (mapM f rest) (fun ys => ret (y :: ys)))
  end.

End Eff.

Notation "x <- c ;; k" := (Eff.bind c (fun x => k))
  (at level 100, c at next level, right associativity).
Notation "c ;;; k" := (Eff.bind c (fun _ => k))
  (at level 100, right associativity).

(** ** src/Structures/Track.ts *)

Module TrackTs.

Import Js.

Record EscapeMarkdownOptions : Type := {
  codeBlock : option bool;
  inlineCode : option bool;
  bold : option bool;
  italic : option bool;
  underline : option bool;
  strikethrough : option bool;
  spoiler : option bool;
  inlineCodeContent : option bool;
  codeBlockContent : option bool
}.

(** The options object [{}]: every member undefined. *)
Definition no_options : EscapeMarkdownOptions :=
  {| codeBlock := None; inlineCode := None; bold := None; italic := None;
     underline := None; strikethrough := None; spoiler := None;
     inlineCodeContent := None; codeBlockContent := None |}.

(** A destructuring default [= true]. *)
Definition flag (o : option bool) : bool := default true o.

Definition backtick : ascii := "`"%char.
Definition star : ascii := "*"%char.
Definition underscore : ascii := "_"%char.
Definition tilde : ascii := "~"%char.
Definition backslash : ascii := "\"%char.

Definition str (c : ascii) : string := String c EmptyString.

(** Three backticks become three escaped backticks. *)
Definition codeBlock_re : matcher unit :=
  fun st _ text =>
    if String.prefix "```" text then Some (3, "\`\`\`", st) else None.

Definition escapeCodeBlock (text : string) : string :=
  replace_all codeBlock_re tt text.

(** One or two backticks, greedy, with no backtick before or after. *)
Definition inlineCode_re : matcher unit :=
  fun st prev text =>
    if not_char backtick prev then
      if String.prefix "``" text && not_char backtick (head (drop 2 text))
      then Some (2, "\`\`", st)
      else if String.prefix "`" text && not_char backtick (head (drop 1 text))
      then Some (1, "\`", st)
      else None
    else None.

Definition escapeInlineCode (text : string) : string :=
  replace_all inlineCode_re tt text.

(** One marker with no marker before it, followed by the group: one unit
    that is not the marker, or two markers, or the end of the subject (the
    alternatives in this order).  The replacer counts the two-marker
    groups in [i]. *)
Definition italic_re (mk : ascii) : matcher nat :=
  fun i prev text =>
    if not_char mk prev && String.prefix (str mk) text then
      match drop 1 text with
      | String c after =>
          if negb (Ascii.eqb c mk) then
            Some (2, str backslash ++ str mk ++ str c, i)
          else if String.prefix (str mk) after then
            let group := str mk ++ str mk in
            let i' := S i in
            Some (3,
                  if Nat.odd i' then str backslash ++ str mk ++ group
                  else group ++ str backslash ++ str mk,
                  i')
          else None
      | EmptyString => Some (1, str backslash ++ str mk, i)
      end
    else None.

Definition escapeItalic (text : string) : string :=
  let text := replace_all (italic_re star) 0 text in
  replace_all (italic_re underscore) 0 text.

(** Two markers and, when present, a third one (the group). *)
Definition double_re (mk : ascii) : matcher nat :=
  fun i _ text =>
    let escaped := str backslash ++ str mk ++ str backslash ++ str mk in
    if String.prefix (str mk ++ str mk) text then
      if String.prefix (str mk) (drop 2 text) then
        let i' := S i in
        Some (3, if Nat.odd i' then str mk ++ escaped else escaped ++ str mk, i')
      else Some (2, escaped, i)
    else None.

Definition escapeBold (text : string) : string :=
  replace_all (double_re star) 0 text.

Definition escapeUnderline (text : string) : string :=
  replace_all (double_re underscore) 0 text.

Definition strikethrough_re : matcher unit :=
  fun st _ text =>
    if String.prefix "~~" text then Some (2, "\~\~", st) else None.

Definition escapeStrikethrough (text : string) : string :=
  replace_all strikethrough_re tt text.

(** The pattern is built from the source text of two vertical bars, which
    as a regular expression is an alternation of empty alternatives: it
    matches the empty string at every position. *)
Definition spoiler_re : matcher unit :=
  fun st _ _ => Some (0, "\|\|", st).

Definition escapeSpoiler (text : string) : string :=
  replace_all spoiler_re tt text.

(** Lines 72 to 79: the marker passes, in the order of the source. *)
Definition escapeMarkers (text : string) (o : EscapeMarkdownOptions) : string :=
  let text := if flag (inlineCode o) then escapeInlineCode text else text in
  let text := if flag (codeBlock o) then escapeCodeBlock text else text in
  let text := if flag (italic o) then escapeItalic text else text in
  let text := if flag (bold o) then escapeBold text else text in
  let text := if flag (underline o) then escapeUnderline text else text in
  let text := if flag (strikethrough o) then escapeStrikethrough text else text in
  let text := if flag (spoiler o) then escapeSpoiler text else text in
  text.

(** The callback of both [map] calls: a piece at an odd index that is not
    the last one is the inside of a span and is kept. *)
Definition map_pieces (f : string -> string) (pieces : list string) : list string :=
  imap (fun index subString =>
          if (negb (index mod 2 =? 0) && negb (index =? List.length pieces - 1))%nat
          then subString else f subString) pieces.

(** A single backtick with no backtick before or after. *)
Definition sep_inlineCode : separator :=
  fun prev text =>
    if not_char backtick prev && String.prefix "`" text
       && not_char backtick (head (drop 1 text))
    then Some 1 else None.

(** [escapeMarkdown] entered with [codeBlockContent] true: lines 56 to 79.
    The recursive call of line 61 passes neither content flag, so it runs
    the marker passes, with [inlineCode] back at its default. *)
Definition escapeMarkdown_from_inline (text : string)
    (o : EscapeMarkdownOptions) : string :=
  if negb (flag (inlineCodeContent o)) then
    join (if flag (inlineCode o) then "\`" else "`")
      (map_pieces
         (fun subString =>
            escapeMarkers subString
              {| codeBlock := codeBlock o; inlineCode := None;
                 bold := bold o; italic := italic o;
                 underline := underline o; strikethrough := strikethrough o;
                 spoiler := spoiler o;
                 inlineCodeContent := None; codeBlockContent := None |})
         (split sep_inlineCode text))
  else escapeMarkers text o.

(** [escapeMarkdown].  The recursive call of line 44 passes no
    [codeBlockContent] (and no [codeBlock]), so it enters at line 56. *)
Definition escapeMarkdown (text : string) (o : EscapeMarkdownOptions) : string :=
  if negb (flag (codeBlockContent o)) then
    join (if flag (codeBlock o) then "\`\`\`" else "```")
      (map_pieces
         (fun subString =>
            escapeMarkdown_from_inline subString
              {| codeBlock := None; inlineCode := inlineCode o;
                 bold := bold o; italic := italic o;
                 underline := underline o; strikethrough := strikethrough o;
                 spoiler := spoiler o;
                 inlineCodeContent := inlineCodeContent o;
                 codeBlockContent := None |})
         (split (sep_string "```") text))
  else escapeMarkdown_from_inline text o.

(** A user of the platform, by id. *)
Definition User : Type := string.

(** [RawTrackData]: what a [Track] is constructed from.  A member may be
    absent.  [raw_playlist] is a reference to the owning [Playlist]
    instance. *)
Record RawTrackData : Type := {
  raw_title : option string;
  raw_description : option string;
  raw_author : option string;
  raw_url : option string;
  raw_thumbnail : option string;
  raw_duration : option string;
  raw_views : option Z;
  raw_requestedBy : option User;
  raw_playlist : option nat;
  raw_source : option string
}.

(** The enumerable members of a [Track], its [id], and the source that
    its [raw] member records. *)
Record Track : Type := {
  id : nat;
  title : string;
  author : string;
  url : string;
  thumbnail : string;
  duration : string;
  views : Z;
  requestedBy : option User;
  playlist : option nat;
  raw : option string
}.

(** The constructor: [_patch(data)] on an instance whose generated id is
    [fresh]. *)
Definition _patch (fresh : nat) (data : RawTrackData) : Track :=
  {| id := fresh;
     title := escapeMarkdown (default "" (raw_title data)) no_options;
     author := default "" (raw_author data);
     url := default "" (raw_url data);
     thumbnail := default "" (raw_thumbnail data);
     duration := default "" (raw_duration data);
     views := default 0%Z (raw_views data);
     requestedBy := raw_requestedBy data;
     playlist := raw_playlist data;
     raw := raw_source data |}.

(** The getter [source]. *)
Definition source (t : Track) : string := default "arbitrary" (raw t).

(** The local function [times] of [durationMS]: the loop multiplies [tn]
    by [n], [t] times, in numbers; [t] is an index of [map]. *)
Definition times (n : number) (t : nat) : number :=
  let tn := Nat.iter t (fun tn => mul tn n) (Exact 1) in
  if (Z.of_nat t <=? 0)%Z then Exact 1000 else mul tn (Exact 1000).

(** The getter [durationMS], on the text of [duration]. *)
Definition durationMS_of (duration : string) : number :=
  foldl (fun a c => add a c) (Exact 0)
    (imap (fun i m => mul (parseInt m) (times (Exact 60) i))
       (rev (split (sep_string ":") duration))).

Definition durationMS (t : Track) : number := durationMS_of (duration t).

End TrackTs.

(** ** src/utils/Util.ts *)

Module UtilTs.

Import Js.

Record TimeData : Type := {
  hours : Z;
  minutes : Z;
  seconds : Z
}.

(** Modelled from the spec: [Util.parseMS] (src/utils/Util.ts is not among
    the sources).  The specification has millisecond durations converted
    to an H:MM:SS-style text, each unit worth 60 of the unit to its right;
    this is the split of a non-negative number of milliseconds into those
    units. *)
Definition parseMS (milliseconds : Z) : TimeData :=
  {| hours := milliseconds / 3600000;
     minutes := (milliseconds / 60000) mod 60;
     seconds := (milliseconds / 1000) mod 60 |}%Z.

Definition digit_char (d : Z) : ascii := ascii_of_nat (48 + Z.to_nat d).

(** The decimal digits of [n] in front of [acc]; [fuel] bounds the number
    of digits after the first. *)
Fixpoint decimal_digits (fuel : nat) (n : Z) (acc : string) : string :=
  let acc' := String (digit_char (n mod 10)) acc in
  match fuel with
  | O => acc'
  | S f => if (n <? 10)%Z then acc' else decimal_digits f (n / 10) acc'
  end.

(** [Number.prototype.toString] of a non-negative integer. *)
Definition toString (n : Z) : string :=
  decimal_digits (Z.to_nat (Z.log2 n)) n "".

(** [padStart(2, 0)] of the decimal text of a number below 100. *)
Definition pad2 (n : Z) : string :=
  if (n <? 10)%Z then String "0"%char (toString n) else toString n.

(** Modelled from the spec: [Util.buildTimeCode] (src/utils/Util.ts is not
    among the sources): the H:MM:SS text of the units. *)
Definition buildTimeCode (d : TimeData) : string :=
  toString (hours d) ++ ":" ++ pad2 (minutes d) ++ ":" ++ pad2 (seconds d).

(** The forward conversion as every call site writes it. *)
Definition formatDurationMS (ms : Z) : string := buildTimeCode (parseMS ms).

End UtilTs.

(** ** src/VoiceInterface/VoiceUtils.ts *)

Module VoiceUtilsTs.

Import Eff.

Definition Snowflake : Type := string.

(** The [options] object of [connect] and [join]. *)
Record JoinOptions : Type := {
  deaf : option bool;
  maxTime : option Z
}.

(** A voice connection of the platform: what [channel.call] resolves to.
    [conn_id] is the identity of the object. *)
Record VoiceConnection : Type := {
  conn_id : nat;
  conn_channel : Snowflake;
  selfDeaf : bool
}.

(** A channel: its id, and how the platform settles a [call] on it. *)
Record DMChannel : Type := {
  channel_id : Snowflake;
  call_rejects : bool -> option Error
}.

(** Modelled from the spec: [StreamDispatcher]
    (src/VoiceInterface/StreamDispatcher.ts is not among the sources), the
    object constructed around one connection.  [sd_id] is the identity of
    the instance; the other members are the constructor's arguments. *)
Record StreamDispatcher : Type := {
  sd_id : nat;
  voiceConnection : VoiceConnection;
  connectionTimeout : option Z
}.

(** A [VoiceUtils] instance with the platform it talks to: the [cache],
    the number of objects created so far, and the [channel.call] requests
    made, oldest first. *)
Record VoiceUtils : Type := {
  cache : gmap string StreamDispatcher;
  created : nat;
  calls : list (Snowflake * bool)
}.

(** [Boolean(v)] of a member that is a boolean or undefined. *)
Definition Boolean (v : option bool) : bool := default false v.

(** [channel.call({ selfDeaf })]: the request reaches the platform, which
    resolves it with a new connection or rejects it. *)
Definition channel_call (channel : DMChannel) (self_deaf : bool)
  : M VoiceUtils VoiceConnection :=
  fun v =>
    let v1 := {| cache := cache v; created := created v;
                 calls := calls v ++ [(channel_id channel, self_deaf)] |} in
    match call_rejects channel self_deaf with
    | Some e => (Thrown e, v1)
    | None =>
        (Returned {| conn_id := created v1;
                     conn_channel := channel_id channel;
                     selfDeaf := self_deaf |},
         {| cache := cache v1; created := S (created v1); calls := calls v1 |})
    end.

(** [new StreamDispatcher(conn, maxTime)]. *)
Definition new_StreamDispatcher (conn : VoiceConnection) (max_time : option Z)
  : M VoiceUtils StreamDispatcher :=
  fun v =>
    (Returned {| sd_id := created v; voiceConnection := conn;
                 connectionTimeout := max_time |},
     {| cache := cache v; created := S (created v); calls := calls v |}).

(** [this.cache.set(key, sub)]. *)
Definition cache_set (key : Snowflake) (sub : StreamDispatcher)
  : M VoiceUtils unit :=
  modify (fun v => {| cache := <[key := sub]> (cache v);
                      created := created v; calls := calls v |}).

(** Reading a member of [options]: a TypeError when [options] is
    undefined. *)
Definition member {A : Type} (options : option JoinOptions)
    (name : string) (proj : JoinOptions -> A) : M VoiceUtils A :=
  match options with
  | None =>
      throw (TypeError
               ("Cannot read properties of undefined (reading '" ++ name ++ "')"))
  | Some o => ret (proj o)
  end.

(** [join]: the argument of [channel.call] is evaluated first. *)
Definition join (channel : DMChannel) (options : option JoinOptions)
  : M VoiceUtils VoiceConnection :=
  d <- member options "deaf" deaf ;;
  channel_call channel (Boolean d).

Definition connect (channel : DMChannel) (options : option JoinOptions)
  : M VoiceUtils StreamDispatcher :=
  conn <- join channel options ;;
  max_time <- member options "maxTime" maxTime ;;
  sub <- new_StreamDispatcher conn max_time ;;
  cache_set (channel_id channel) sub ;;;
  ret sub.

Definition getConnection (v : VoiceUtils) (guild : Snowflake)
  : option StreamDispatcher :=
  cache v !! guild.

End VoiceUtilsTs.

(** ** The Player class *)

Module PlayerTs.

Import Eff.

(** *** The queue table *)

Record YtdlOptions : Type := {
  highWaterMark : Z
}.

(** [PlayerOptions & { metadata }]: the members [createQueue] reads or
    writes.  [volumeSmoothness] is a decimal fraction. *)
Record PlayerOptions : Type := {
  metadata : option string;
  volumeSmoothness : option (Z * Z);
  ytdlOptions : option YtdlOptions
}.

(** Modelled from the spec: [Queue] (src/Structures/Queue.ts is not among
    the sources), the session object of one destination.  [queue_id] is
    the identity of the instance; the other members are what
    [createQueue] hands to the constructor and assigns afterwards. *)
Record Queue : Type := {
  queue_id : nat;
  dmGuild : string;
  queue_options : PlayerOptions;
  queue_metadata : option string
}.

(** A listener: the identity of the function, and whether a call of it
    with the given arguments throws, and what. *)
Record Listener : Type := {
  listener_id : nat;
  listener_throws : list string -> option Error
}.

(** *** Extractors *)

(** What [Playlist] is constructed from, [tracks] apart: the members that
    identify the collection. *)
Record PlaylistInitData : Type := {
  playlist_title : string;
  playlist_type : string;
  playlist_source : string;
  playlist_url : string
}.

(** Modelled from the spec: [Playlist] (src/Structures/Playlist.ts is not
    among the sources): the collection data and the ordered tracks, a
    member that is assigned after construction. *)
Record Playlist : Type := {
  init : PlaylistInitData;
  playlist_tracks : list TrackTs.Track
}.

(** An item whose duration is a number of milliseconds: the members that
    are spread into the track data, and [duration]. *)
Record TimedItem : Type := {
  item : TrackTs.RawTrackData;
  duration_ms : Z
}.

(** What [ExtractorModel.handle] resolves to. *)
Record ExtractorModelData : Type := {
  playlist_data : option PlaylistInitData;
  data : list TimedItem
}.

(** The capability interface of a registered extractor: [validate], and
    [handle], whose promise resolves to data or to nothing, or is
    rejected. *)
Record ExtractorModel : Type := {
  validate : string -> bool;
  handle : string -> Outcome (option ExtractorModelData)
}.

(** The player object: [options.ytdlOptions], the queue table, the
    extractor collection in insertion order, [requiredEvents], the
    listeners of the emitter by event name, and the number of queue
    objects constructed so far. *)
Record Player : Type := {
  player_ytdlOptions : option YtdlOptions;
  queues : gmap string Queue;
  extractors : list (string * ExtractorModel);
  requiredEvents : list string;
  listeners : gmap string (list Listener);
  constructed : nat
}.

Definition with_queues (p : Player) (qs : gmap string Queue) (n : nat) : Player :=
  {| player_ytdlOptions := player_ytdlOptions p; queues := qs;
     extractors := extractors p; requiredEvents := requiredEvents p;
     listeners := listeners p; constructed := n |}.

(** [a ??= b]. *)
Definition nullish_assign {A : Type} (a b : option A) : option A :=
  match a with
  | Some _ => a
  | None => b
  end.

(** [createQueue]: the queue returned, the player afterwards, and the
    caller's options object afterwards. *)
Definition createQueue (p : Player) (guild : string)
    (queueInitOptions : PlayerOptions) : Queue * Player * PlayerOptions :=
  match queues p !! guild with
  | Some existing => (existing, p, queueInitOptions)
  | None =>
      let _meta := metadata queueInitOptions in
      let opts :=
        {| metadata := None;
           volumeSmoothness :=
             nullish_assign (volumeSmoothness queueInitOptions) (Some (8, 100)%Z);
           ytdlOptions :=
             nullish_assign (ytdlOptions queueInitOptions) (player_ytdlOptions p) |} in
      let queue :=
        {| queue_id := constructed p; dmGuild := guild;
           queue_options := opts; queue_metadata := _meta |} in
      (queue, with_queues p (<[guild := queue]> (queues p)) (S (constructed p)), opts)
  end.

Definition getQueue (p : Player) (guild : string) : option Queue :=
  queues p !! guild.

(** *** search *)

Inductive QueryType : Type :=
| AUTO
| YOUTUBE_VIDEO
| YOUTUBE_SEARCH
| YOUTUBE_PLAYLIST
| SOUNDCLOUD_TRACK
| SOUNDCLOUD_SEARCH
| SOUNDCLOUD_PLAYLIST
| SPOTIFY_SONG
| SPOTIFY_ALBUM
| SPOTIFY_PLAYLIST
| OTHER_QUERY_TYPE.

(** [options.searchEngine]: a member of [QueryType], or a string. *)
Inductive SearchEngine : Type :=
| Engine (qt : QueryType)
| Named (name : string).

Record SearchOptions : Type := {
  requestedBy : option TrackTs.User;
  searchEngine : option SearchEngine;
  blockExtractor : bool
}.

Inductive Query : Type :=
| QueryTrack (t : TrackTs.Track)
| QueryString (q : string).

(** [PlayerSearchResult]; [playlist] refers to the instance. *)
Record PlayerSearchResult : Type := {
  playlist : option nat;
  tracks : list TrackTs.Track
}.

Definition empty_result : PlayerSearchResult :=
  {| playlist := None; tracks := [] |}.

(** A use of a registered extractor. *)
Inductive Event : Type :=
| Validated (extractor : string)
| Handled (extractor : string).

(** What a search changes: the ids and instances given out so far, the
    [Playlist] instances with their track sequences, and the uses of the
    registered extractors, oldest first. *)
Record World : Type := {
  next_id : nat;
  playlists : gmap nat Playlist;
  log : list Event
}.

Definition logged (ev : Event) (w : World) : World :=
  {| next_id := next_id w; playlists := playlists w; log := log w ++ [ev] |}.

(** How a call to a source library settles. *)
Inductive Net (A : Type) : Type :=
| Rejected (reason : string)
| Resolved (v : option A).

Arguments Rejected {A} reason.
Arguments Resolved {A} v.

(** [.catch(Util.noop)] followed by the test of the value: a rejection
    becomes undefined. *)
Definition caught {A : Type} (r : Net A) : option A :=
  match r with
  | Rejected _ => None
  | Resolved v => v
  end.

(** A Spotify playlist or album: [type], what the playlist is constructed
    from, and the members of [tracks.items] as the branch for that [type]
    reads them (line 408). *)
Record SpotifyCollection : Type := {
  spotify_type : string;
  spotify_init : PlaylistInitData;
  spotify_items : list TimedItem
}.

(** A SoundCloud playlist: what the playlist is constructed from, and
    [tracks]. *)
Record SoundCloudPlaylist : Type := {
  soundcloud_init : PlaylistInitData;
  soundcloud_songs : list TimedItem
}.

(** A YouTube playlist: what the playlist is constructed from, and
    [videos], whose durations are texts already. *)
Record YouTubePlaylist : Type := {
  youtube_init : PlaylistInitData;
  youtube_videos : list TrackTs.RawTrackData
}.

(** The collaborators [search] calls: the query classifier and the source
    libraries.  A payload is given by the members the branch copies into
    the track data; the shape of the responses is the libraries'. *)
Record Sources : Type := {
  QueryResolver_resolve : string -> QueryType;
  ytdlGetInfo : string -> Net TimedItem;
  YouTube_search : string -> Net (list TrackTs.RawTrackData);
  soundcloud_search : string -> Net (list string);
  soundcloud_getSongInfo : string -> Net TimedItem;
  Spotify_getData_song : string -> Net TimedItem;
  Spotify_getData : string -> Net SpotifyCollection;
  soundcloud_getPlaylist : string -> Net SoundCloudPlaylist;
  YouTube_getPlaylist : string -> Net YouTubePlaylist;
  YouTube_fetch : YouTubePlaylist -> Net YouTubePlaylist
}.

Definition with_context (d : TrackTs.RawTrackData) (duration : option string)
    (user : option TrackTs.User) (pl : option nat) (src : option string)
  : TrackTs.RawTrackData :=
  {| TrackTs.raw_title := TrackTs.raw_title d;
     TrackTs.raw_description := TrackTs.raw_description d;
     TrackTs.raw_author := TrackTs.raw_author d;
     TrackTs.raw_url := TrackTs.raw_url d;
     TrackTs.raw_thumbnail := TrackTs.raw_thumbnail d;
     TrackTs.raw_duration := duration;
     TrackTs.raw_views := TrackTs.raw_views d;
     TrackTs.raw_requestedBy := user;
     TrackTs.raw_playlist := pl;
     TrackTs.raw_source := src |}.

(** The track data of an item with a duration in milliseconds. *)
Definition timed_data (o : SearchOptions) (pl : option nat)
    (src : option string) (m : TimedItem) : TrackTs.RawTrackData :=
  with_context (item m)
    (Some (UtilTs.buildTimeCode (UtilTs.parseMS (duration_ms m))))
    (requestedBy o) pl src.

(** [new Track(this, data)]. *)
Definition new_Track (d : TrackTs.RawTrackData) : M World TrackTs.Track :=
  fun w =>
    (Returned (TrackTs._patch (next_id w) d),
     {| next_id := S (next_id w); playlists := playlists w; log := log w |}).

(** [new Playlist(this, { ..., tracks: [] })]. *)
Definition new_Playlist (i : PlaylistInitData) : M World nat :=
  fun w =>
    (Returned (next_id w),
     {| next_id := S (next_id w);
        playlists := <[next_id w := {| init := i; playlist_tracks := [] |}]> (playlists w);
        log := log w |}).

(** [playlist.tracks = ts]. *)
Definition set_tracks (ref : nat) (ts : list TrackTs.Track) : M World unit :=
  modify (fun w =>
    {| next_id := next_id w;
       playlists :=
         alter (fun p => {| init := init p; playlist_tracks := ts |}) ref (playlists w);
       log := log w |}).

Definition call_validate (name : string) (e : ExtractorModel) (q : string)
  : M World bool :=
  fun w => (Returned (validate e q), logged (Validated name) w).

Definition call_handle (name : string) (e : ExtractorModel) (q : string)
  : M World (option ExtractorModelData) :=
  fun w => (handle e q, logged (Handled name) w).

(** Lines 232 to 251, and again 261 to 280: the playlist first, with no
    tracks, then the tracks, then the back-fill. *)
Definition extractor_result (o : SearchOptions) (d : ExtractorModelData)
  : M World PlayerSearchResult :=
  pl <- match playlist_data d with
        | None => ret None
        | Some i => (r <- new_Playlist i ;; ret (Some r))
        end ;;
  ts <- mapM (fun m => new_Track
                (timed_data o pl (TrackTs.raw_source (item m)) m)) (data d) ;;
  match pl with
  | Some r => set_tracks r ts
  | None => ret tt
  end ;;;
  ret {| playlist := pl; tracks := ts |}.

(** [data && data.data.length]. *)
Definition has_items (d : option ExtractorModelData) : option ExtractorModelData :=
  match d with
  | Some d' => match data d' with [] => None | _ :: _ => Some d' end
  | None => None
  end.

(** [handle] and the guarded block after it: [Some] is a [return]. *)
Definition try_extractor (name : string) (e : ExtractorModel) (q : string)
    (o : SearchOptions) : M World (option PlayerSearchResult) :=
  d <- call_handle name e q ;;
  match has_items d with
  | Some d' => (r <- extractor_result o d' ;; ret (Some r))
  | None => ret None
  end.

(** [Map.prototype.get] on the extractor collection. *)
Fixpoint get_extractor (name : string) (l : list (string * ExtractorModel))
  : option ExtractorModel :=
  match l with
  | [] => None
  | (n, e) :: rest => if String.eqb n name then Some e else get_extractor name rest
  end.

(** Line 226: without a [searchEngine] member the engine is [AUTO]. *)
Definition engine_of (o : SearchOptions) : SearchEngine :=
  default (Engine AUTO) (searchEngine o).

(** Lines 227 to 253: the extractor the options name. *)
Definition named_phase (p : Player) (q : string) (o : SearchOptions)
  : M World (option PlayerSearchResult) :=
  match engine_of o with
  | Named name =>
      match get_extractor name (extractors p) with
      | Some extractor =>
          ok <- call_validate name extractor q ;;
          if negb ok then ret (Some empty_result)
          else try_extractor name extractor q o
      | None => ret None
      end
  | Engine _ => ret None
  end.

(** Lines 256 to 282: the loop over the collection. *)
Fixpoint chain (exts : list (string * ExtractorModel)) (q : string)
    (o : SearchOptions) : M World (option PlayerSearchResult) :=
  match exts with
  | [] => ret None
  | (name, extractor) :: rest =>
      if blockExtractor o then ret None
      else
        ok <- call_validate name extractor q ;;
        if negb ok then chain rest q o
        else
          r <- try_extractor name extractor q o ;;
          match r with
          | Some res => ret (Some res)
          | None => chain rest q o
          end
  end.

(** The loop of lines 335 to 353. *)
Fixpoint soundcloud_tracks (s : Sources) (o : SearchOptions) (urls : list string)
  : M World (list TrackTs.Track) :=
  match urls with
  | [] => ret []
  | u :: rest =>
      match caught (soundcloud_getSongInfo s u) with
      | None => soundcloud_tracks s o rest
      | Some trackInfo =>
          t <- new_Track (timed_data o None (Some "soundcloud") trackInfo) ;;
          ts <- soundcloud_tracks s o rest ;;
          ret (t :: ts)
      end
  end.

(** Lines 284 to 530: the switch over the query type. *)
Definition builtin (s : Sources) (qt : SearchEngine) (q : string)
    (o : SearchOptions) : M World PlayerSearchResult :=
  match qt with
  | Engine YOUTUBE_VIDEO =>
      match caught (ytdlGetInfo s q) with
      | None => ret empty_result
      | Some info =>
          t <- new_Track (timed_data o None (Some "youtube") info) ;;
          ret {| playlist := None; tracks := [t] |}
      end
  | Engine YOUTUBE_SEARCH =>
      match caught (YouTube_search s q) with
      | None => ret empty_result
      | Some videos =>
          ts <- mapM (fun m => new_Track
                        (with_context m (TrackTs.raw_duration m) (requestedBy o)
                           None (Some "youtube"))) videos ;;
          ret {| playlist := None; tracks := ts |}
      end
  | Engine SOUNDCLOUD_TRACK | Engine SOUNDCLOUD_SEARCH =>
      let result :=
        match QueryResolver_resolve s q with
        | SOUNDCLOUD_TRACK => Some [q]
        | _ =>
            match soundcloud_search s q with
            | Rejected _ => Some []
            | Resolved v => v
            end
        end in
      match result with
      | None | Some [] => ret empty_result
      | Some urls =>
          res <- soundcloud_tracks s o urls ;;
          ret {| playlist := None; tracks := res |}
      end
  | Engine SPOTIFY_SONG =>
      match caught (Spotify_getData_song s q) with
      | None => ret empty_result
      | Some spotifyData =>
          t <- new_Track (timed_data o None (Some "spotify") spotifyData) ;;
          ret {| playlist := None; tracks := [t] |}
      end
  | Engine SPOTIFY_PLAYLIST | Engine SPOTIFY_ALBUM =>
      match caught (Spotify_getData s q) with
      | None => ret empty_result
      | Some spotifyPlaylist =>
          r <- new_Playlist (spotify_init spotifyPlaylist) ;;
          ts <- mapM (fun m => new_Track
                        (timed_data o (Some r) (Some "spotify") m))
                  (spotify_items spotifyPlaylist) ;;
          set_tracks r ts ;;;
          ret {| playlist := Some r; tracks := ts |}
      end
  | Engine SOUNDCLOUD_PLAYLIST =>
      match caught (soundcloud_getPlaylist s q) with
      | None => ret empty_result
      | Some d =>
          r <- new_Playlist (soundcloud_init d) ;;
          ts <- mapM (fun song => new_Track
                        (timed_data o (Some r) (Some "soundcloud") song))
                  (soundcloud_songs d) ;;
          set_tracks r ts ;;;
          ret {| playlist := Some r; tracks := ts |}
      end
  | Engine YOUTUBE_PLAYLIST =>
      match caught (YouTube_getPlaylist s q) with
      | None => ret empty_result
      | Some ytpl =>
          let ytpl := default ytpl (caught (YouTube_fetch s ytpl)) in
          r <- new_Playlist (youtube_init ytpl) ;;
          ts <- mapM (fun video => new_Track
                        (with_context video (TrackTs.raw_duration video)
                           (requestedBy o) (Some r) (Some "youtube")))
                  (youtube_videos ytpl) ;;
          set_tracks r ts ;;;
          ret {| playlist := Some r; tracks := ts |}
      end
  | _ => ret empty_result
  end.

(** Line 284. *)
Definition query_type (s : Sources) (q : string) (o : SearchOptions) : SearchEngine :=
  match engine_of o with
  | Engine AUTO => Engine (QueryResolver_resolve s q)
  | e => e
  end.

(** The phases over the registered extractors: [Some] is a [return]. *)
Definition registered_phase (p : Player) (q : string) (o : SearchOptions)
  : M World (option PlayerSearchResult) :=
  r <- named_phase p q o ;;
  match r with
  | Some res => ret (Some res)
  | None => chain (extractors p) q o
  end.

Definition search (p : Player) (s : Sources) (query : Query)
    (options : option SearchOptions) : M World PlayerSearchResult :=
  match query with
  | QueryTrack t => ret {| playlist := TrackTs.playlist t; tracks := [t] |}
  | QueryString q =>
      match options with
      | None =>
          throw (PlayerError "DiscordPlayer#search needs search options!"
                   "INVALID_ARG_TYPE")
      | Some o =>
          r <- registered_phase p q o ;;
          match r with
          | Some res => ret res
          | None => builtin s (query_type s q o) q o
          end
      end
  end.

(** *** emit *)

(** What an emit does besides returning. *)
Inductive Effect : Type :=
| ConsoleError (args : list string)
| ProcessWarning (warning : string)
| ListenerCalled (l : Listener) (args : list string).

Definition listeners_of (p : Player) (eventName : string) : list Listener :=
  default [] (listeners p !! eventName).

(** [EventEmitter.prototype.eventNames]: the events with a listener. *)
Definition eventNames (p : Player) : list string :=
  (map_to_list (filter (fun kv => kv.2 <> []) (listeners p))).*1.

(** [Array.prototype.includes] on strings. *)
Definition includes (l : list string) (x : string) : bool :=
  existsb (String.eqb x) l.

(** The listeners are called in the order they were added; what a
    listener throws ends the emit and is thrown by it. *)
Fixpoint call_listeners (ls : list Listener) (args : list string)
  : Outcome bool * list Effect :=
  match ls with
  | [] => (Returned true, [])
  | l :: rest =>
      match listener_throws l args with
      | Some e => (Thrown e, [ListenerCalled l args])
      | None =>
          let '(r, effects) := call_listeners rest args in
          (r, ListenerCalled l args :: effects)
      end
  end.

(** [EventEmitter.prototype.emit]: the listeners of the event are called;
    an error event nobody listens to is thrown. *)
Definition super_emit (p : Player) (eventName : string) (args : list string)
  : Outcome bool * list Effect :=
  match listeners_of p eventName with
  | [] =>
      if String.eqb eventName "error"
      then (Thrown (Rejection "Unhandled error."), [])
      else (Returned false, [])
  | ls => call_listeners ls args
  end.

Definition quote : string := String (ascii_of_nat 34) EmptyString.

Definition quoted (m : string) : string := quote ++ m ++ quote.

Definition warning_text (p : Player) (eventName : string) : string :=
  "[DiscordPlayerWarning] Unhandled " ++ quoted eventName ++ " event! Events "
  ++ Js.join ", " (quoted <$> requiredEvents p) ++ " must have event listeners!".

Definition emit (p : Player) (eventName : string) (args : list string)
  : Outcome bool * list Effect :=
  if includes (requiredEvents p) eventName && negb (includes (eventNames p) eventName)
  then (Returned false, [ConsoleError args; ProcessWarning (warning_text p eventName)])
  else super_emit p eventName args.

End PlayerTs.

(** ** VoiceUtils: disconnect *)

Module VoiceDisconnect.

Import Eff VoiceUtilsTs.

(** A [VoiceUtils] beside the platform: the connections the platform has
    been asked to destroy, oldest first, and how the platform settles such
    a request ([VoiceConnection.prototype.destroy] is the library's). *)
Record Voice : Type := {
  utils : VoiceUtils;
  destroyed : list nat;
  destroy_throws : nat -> option Error
}.

(** [connection.destroy()]. *)
Definition destroy (conn : VoiceConnection) : M Voice unit :=
  fun s =>
    (match destroy_throws s (conn_id conn) with
     | Some e => Thrown e
     | None => Returned tt
     end,
     {| utils := utils s;
        destroyed := destroyed s ++ [conn_id conn];
        destroy_throws := destroy_throws s |}).

(** [disconnect]: the argument is a connection or a dispatcher. *)
Definition disconnect (connection : VoiceConnection + StreamDispatcher)
  : M Voice unit :=
  match connection with
  | inr dispatcher => destroy (voiceConnection dispatcher)
  | inl conn => destroy conn
  end.

End VoiceDisconnect.

(** ** The Player class: extractor registration and queue removal *)

Module PlayerMore.

Import Eff PlayerTs.

Definition with_extractors (p : Player) (l : list (string * ExtractorModel)) : Player :=
  {| player_ytdlOptions := player_ytdlOptions p; queues := queues p;
     extractors := l; requiredEvents := requiredEvents p;
     listeners := listeners p; constructed := constructed p |}.

(** [Map.prototype.set] on the collection: the value of a key that is
    present is replaced where it stands, a new key goes to the end. *)
Fixpoint map_set (name : string) (e : ExtractorModel)
    (l : list (string * ExtractorModel)) : list (string * ExtractorModel) :=
  match l with
  | [] => [(name, e)]
  | (n, x) :: rest =>
      if String.eqb n name then (n, e) :: rest else (n, x) :: map_set name e rest
  end.

(** [Map.prototype.delete]. *)
Fixpoint map_delete (name : string) (l : list (string * ExtractorModel))
  : list (string * ExtractorModel) :=
  match l with
  | [] => []
  | (n, x) :: rest =>
      if String.eqb n name then map_delete name rest
      else (n, x) :: map_delete name rest
  end.

(** The [extractor] argument of [use]: an [ExtractorModel] instance; any
    other value, with whether its [validate] and its [getInfo] are
    functions, and the model that [new ExtractorModel(extractorName,
    extractor)] makes of it with the [name] of that model (the constructor
    is not among the sources); or undefined or null. *)
Inductive ExtractorInput : Type :=
| Instance (e : ExtractorModel)
| Plain (has_validate has_getInfo : bool) (model_name : string)
    (model : ExtractorModel)
| Nothing.

Definition use (p : Player) (extractorName : string) (extractor : ExtractorInput)
    (force : bool) : Outcome ExtractorModel * Player :=
  if String.eqb extractorName "" then
    (Thrown (PlayerError "Cannot use unknown extractor!" "UNKNOWN_EXTRACTOR"), p)
  else
    match get_extractor extractorName (extractors p), force with
    | Some existing, false => (Returned existing, p)
    | _, _ =>
        match extractor with
        | Instance e =>
            (Returned e, with_extractors p (map_set extractorName e (extractors p)))
        | Plain has_validate has_getInfo model_name model =>
            if has_validate && has_getInfo then
              (Returned model,
               with_extractors p (map_set model_name model (extractors p)))
            else (Thrown (PlayerError "Invalid extractor data!" "INVALID_EXTRACTOR"), p)
        | Nothing =>
            (Thrown (TypeError
                       "Cannot read properties of undefined (reading 'validate')"), p)
        end
    end.

Definition unuse (p : Player) (extractorName : string)
  : Outcome ExtractorModel * Player :=
  match get_extractor extractorName (extractors p) with
  | None =>
      (Thrown (PlayerError ("Cannot find extractor " ++ quoted extractorName)
                 "UNKNOWN_EXTRACTOR"), p)
  | Some prev =>
      (Returned prev, with_extractors p (map_delete extractorName (extractors p)))
  end.

(** [deleteQueue].  [destroy] is [Queue.prototype.destroy], which is not
    among the sources: whatever it does to the queue table, and whether it
    returns or throws, its outcome is discarded by the [try], as is the
    TypeError of calling it on undefined. *)
Definition deleteQueue
    (destroy : Queue -> gmap string Queue -> Outcome unit * gmap string Queue)
    (p : Player) (guild : string) : option Queue * Player :=
  let prev := getQueue p guild in
  let table :=
    match prev with
    | Some q => (destroy q (queues p)).2
    | None => queues p
    end in
  (prev, with_queues p (delete guild table) (constructed p)).

(** [resolveQueue]: a queue object is resolved through its [dmGuild]. *)
Definition resolveQueue (p : Player) (queueLike : string + Queue) : option Queue :=
  getQueue p (match queueLike with inr q => dmGuild q | inl key => key end).

End PlayerMore.

(** * Statement vocabulary and concrete inputs *)

Module TrackInputs.

Import Js TrackTs.

(** Every default, with the spoiler pass switched off. *)
Definition no_spoiler : EscapeMarkdownOptions :=
  {| codeBlock := None; inlineCode := None; bold := None; italic := None;
     underline := None; strikethrough := None; spoiler := Some false;
     inlineCodeContent := None; codeBlockContent := None |}.

(** A decimal digit, and a text of decimal digits. *)
Definition is_digit (c : ascii) : bool := ((48 <=? code c) && (code c <=? 57))%Z.

Fixpoint digits_only (s : string) : bool :=
  match s with
  | EmptyString => true
  | String c rest => is_digit c && digits_only rest
  end.

End TrackInputs.

Module VoiceInputs.

Import Eff VoiceUtilsTs.

(** A channel whose calls the platform accepts. *)
Definition lobby : DMChannel :=
  {| channel_id := "872345"; call_rejects := fun _ => None |}.

(** The options object [{}]. *)
Definition empty_options : JoinOptions := {| deaf := None; maxTime := None |}.

(** A fresh [VoiceUtils]. *)
Definition fresh : VoiceUtils := {| cache := ∅; created := 0; calls := [] |}.

(** [fresh] after one [connect] to [lobby]. *)
Definition joined : VoiceUtils := (connect lobby (Some empty_options) fresh).2.

Definition first_connection : VoiceConnection :=
  {| conn_id := 0; conn_channel := "872345"; selfDeaf := false |}.

Definition first_dispatcher : StreamDispatcher :=
  {| sd_id := 1; voiceConnection := first_connection; connectionTimeout := None |}.

Definition second_dispatcher : StreamDispatcher :=
  {| sd_id := 3;
     voiceConnection := {| conn_id := 2; conn_channel := "872345"; selfDeaf := false |};
     connectionTimeout := None |}.

(** Every cached dispatcher is one of the objects created so far. *)
Definition cache_bounded (v : VoiceUtils) : Prop :=
  forall key d, cache v !! key = Some d -> sd_id d < created v.

End VoiceInputs.

Module PlayerInputs.

Import Eff PlayerTs.

(** A player as constructed: the default options, no queue, no extractor,
    no listener. *)
Definition new_player : Player :=
  {| player_ytdlOptions := Some {| highWaterMark := 33554432 |};
     queues := ∅;
     extractors := [];
     requiredEvents := ["error"; "connectionError"];
     listeners := ∅;
     constructed := 0 |}.

(** A listener that returns, and one that throws. *)
Definition returning (n : nat) : Listener :=
  {| listener_id := n; listener_throws := fun _ => None |}.

Definition throwing (n : nat) (e : Error) : Listener :=
  {| listener_id := n; listener_throws := fun _ => Some e |}.

(** [new_player] after [on(eventName, listener)]. *)
Definition listening (p : Player) (eventName : string) (l : Listener) : Player :=
  {| player_ytdlOptions := player_ytdlOptions p;
     queues := queues p;
     extractors := extractors p;
     requiredEvents := requiredEvents p;
     listeners := <[eventName := (listeners_of p eventName ++ [l])%list]> (listeners p);
     constructed := constructed p |}.

(** The queues of successive [createQueue] calls for one guild, each with
    its own options, and the player after them. *)
Fixpoint createQueue_each (p : Player) (guild : string) (os : list PlayerOptions)
  : list Queue * Player :=
  match os with
  | [] => ([], p)
  | o :: rest =>
      let '(q, p', _) := createQueue p guild o in
      let '(qs, p'') := createQueue_each p' guild rest in
      (q :: qs, p'')
  end.

End PlayerInputs.

Module SearchInputs.

Import Eff PlayerTs.

(** The world with more uses logged. *)
Definition logged_all (evs : list Event) (w : World) : World :=
  {| next_id := next_id w; playlists := playlists w; log := (log w ++ evs)%list |}.

(** The options name no registered extractor. *)
Definition names_no_extractor (p : Player) (o : SearchOptions) : Prop :=
  match engine_of o with
  | Named name => get_extractor name (extractors p) = None
  | Engine _ => True
  end.

(** An extractor that does not match the query, or matches it and
    resolves to nothing or to no item. *)
Definition fruitless (q : string) (e : ExtractorModel) : Prop :=
  validate e q = false
  \/ exists d, handle e q = Returned d /\ has_items d = None.

(** The uses the loop makes of fruitless extractors, in order. *)
Definition uses (q : string) (exts : list (string * ExtractorModel)) : list Event :=
  flat_map (fun '(name, e) =>
              if validate e q then [Validated name; Handled name]
              else [Validated name]) exts.

(** The tracks constructed from the items of an extractor, the first of
    them with id [first]. *)
Definition tracks_from (o : SearchOptions) (pl : option nat) (first : nat)
    (items : list TimedItem) : list TrackTs.Track :=
  imap (fun i m =>
          TrackTs._patch (first + i)
            (timed_data o pl (TrackTs.raw_source (item m)) m)) items.

(** The lookup of a built-in branch is rejected. *)
Definition rejected {A : Type} (r : Net A) : bool :=
  match r with
  | Rejected _ => true
  | Resolved _ => false
  end.

Definition lookup_rejected (s : Sources) (qt : SearchEngine) (q : string) : bool :=
  match qt with
  | Engine YOUTUBE_VIDEO => rejected (ytdlGetInfo s q)
  | Engine YOUTUBE_SEARCH => rejected (YouTube_search s q)
  | Engine SOUNDCLOUD_TRACK | Engine SOUNDCLOUD_SEARCH =>
      match QueryResolver_resolve s q with
      | SOUNDCLOUD_TRACK => rejected (soundcloud_getSongInfo s q)
      | _ => rejected (soundcloud_search s q)
      end
  | Engine SPOTIFY_SONG => rejected (Spotify_getData_song s q)
  | Engine SPOTIFY_PLAYLIST | Engine SPOTIFY_ALBUM => rejected (Spotify_getData s q)
  | Engine SOUNDCLOUD_PLAYLIST => rejected (soundcloud_getPlaylist s q)
  | Engine YOUTUBE_PLAYLIST => rejected (YouTube_getPlaylist s q)
  | _ => false
  end.

(** Concrete collaborators. *)

Definition song (name : string) : TimedItem :=
  {| item :=
       {| TrackTs.raw_title := Some name; TrackTs.raw_description := None;
          TrackTs.raw_author := Some "someone"; TrackTs.raw_url := None;
          TrackTs.raw_thumbnail := None; TrackTs.raw_duration := None;
          TrackTs.raw_views := Some 10%Z; TrackTs.raw_requestedBy := None;
          TrackTs.raw_playlist := None; TrackTs.raw_source := Some "arbitrary" |};
     duration_ms := 61000 |}.

(** Matches every query and resolves to no item. *)
Definition R1 : ExtractorModel :=
  {| validate := fun _ => true;
     handle := fun _ => Returned (Some {| playlist_data := None; data := [] |}) |}.

(** Matches every query and resolves to two items. *)
Definition R2 : ExtractorModel :=
  {| validate := fun _ => true;
     handle := fun _ =>
       Returned (Some {| playlist_data := None; data := [song "one"; song "two"] |}) |}.

(** Matches no query. *)
Definition R0 : ExtractorModel :=
  {| validate := fun _ => false;
     handle := fun _ => Thrown (Rejection "unreachable") |}.

Definition player_with (exts : list (string * ExtractorModel)) : Player :=
  {| player_ytdlOptions := None; queues := ∅; extractors := exts;
     requiredEvents := ["error"; "connectionError"]; listeners := ∅;
     constructed := 0 |}.

(** Sources that are all unreachable; every query is a YouTube video
    link. *)
Definition offline : Sources :=
  {| QueryResolver_resolve := fun _ => YOUTUBE_VIDEO;
     ytdlGetInfo := fun _ => Rejected "ENOTFOUND";
     YouTube_search := fun _ => Rejected "ENOTFOUND";
     soundcloud_search := fun _ => Rejected "ENOTFOUND";
     soundcloud_getSongInfo := fun _ => Rejected "ENOTFOUND";
     Spotify_getData_song := fun _ => Rejected "ENOTFOUND";
     Spotify_getData := fun _ => Rejected "ENOTFOUND";
     soundcloud_getPlaylist := fun _ => Rejected "ENOTFOUND";
     YouTube_getPlaylist := fun _ => Rejected "ENOTFOUND";
     YouTube_fetch := fun _ => Rejected "ENOTFOUND" |}.

(** A playlist link whose first page resolves to one video; loading the
    rest is rejected. *)
Definition first_page : YouTubePlaylist :=
  {| youtube_init :=
       {| playlist_title := "mix"; playlist_type := "playlist";
          playlist_source := "youtube"; playlist_url := "https://youtube.com/playlist" |};
     youtube_videos := [item (song "one")] |}.

Definition fetch_fails : Sources :=
  {| QueryResolver_resolve := fun _ => YOUTUBE_PLAYLIST;
     ytdlGetInfo := fun _ => Rejected "ENOTFOUND";
     YouTube_search := fun _ => Rejected "ENOTFOUND";
     soundcloud_search := fun _ => Rejected "ENOTFOUND";
     soundcloud_getSongInfo := fun _ => Rejected "ENOTFOUND";
     Spotify_getData_song := fun _ => Rejected "ENOTFOUND";
     Spotify_getData := fun _ => Rejected "ENOTFOUND";
     soundcloud_getPlaylist := fun _ => Rejected "ENOTFOUND";
     YouTube_getPlaylist := fun _ => Resolved (Some first_page);
     YouTube_fetch := fun _ => Rejected "ECONNRESET" |}.

Definition automatic : SearchOptions :=
  {| requestedBy := Some "42"; searchEngine := None; blockExtractor := false |}.

Definition automatic_blocked : SearchOptions :=
  {| requestedBy := Some "42"; searchEngine := None; blockExtractor := true |}.

Definition naming (name : string) : SearchOptions :=
  {| requestedBy := Some "42"; searchEngine := Some (Named name);
     blockExtractor := false |}.

Definition blank : World := {| next_id := 0; playlists := ∅; log := [] |}.

End SearchInputs.

Module EscapeWords.

Import Js TrackTs.

(** The text without its backslashes. *)
Fixpoint unescaped (s : string) : string :=
  match s with
  | EmptyString => EmptyString
  | String c rest =>
      if Ascii.eqb c backslash then unescaped rest else String c (unescaped rest)
  end.

(** [backslashed s t]: the text [t] is the text [s] with backslashes put
    in and nothing else.  Every code unit of [s], its own backslashes
    included, is in [t], in the same order, and what [t] has besides are
    backslashes. *)
Inductive backslashed : string -> string -> Prop :=
| backslashed_end : backslashed EmptyString EmptyString
| backslashed_keep (c : ascii) (s t : string) :
    backslashed s t -> backslashed (String c s) (String c t)
| backslashed_put (s t : string) :
    backslashed s t -> backslashed s (String backslash t).

(** A matcher whose replacement is the matched text with backslashes put
    in. *)
Definition inserting {St : Type} (m : matcher St) : Prop :=
  forall st prev t n repl st',
    m st prev t = Some (n, repl, st') ->
    exists matched rest,
      t = matched ++ rest /\ String.length matched = n
      /\ backslashed matched repl.











(** A separator that matches the text [sepstr] and nothing else. *)
Definition separates (sep : separator) (sepstr : string) : Prop :=
  forall prev t k,
    sep prev t = Some (S k) ->
    String.length sepstr = S k /\ exists rest, t = sepstr ++ rest.

(** Two escaped vertical bars after every code unit. *)
Fixpoint barred (s : string) : string :=
  match s with
  | EmptyString => EmptyString
  | String c rest => String c ("\|\|" ++ barred rest)
  end.

(** The number of vertical bars. *)
Fixpoint bars (s : string) : nat :=
  match s with
  | EmptyString => 0
  | String c rest => (if Ascii.eqb c "|" then 1 else 0) + bars rest
  end.

(** The pieces after the first one, each behind the separator text. *)
Fixpoint rejoined (sepstr : string) (ps : list string) : string :=
  match ps with
  | [] => EmptyString
  | x :: rest => sepstr ++ x ++ rejoined sepstr rest
  end.

End EscapeWords.

Module DurationWords.

(** A text with no colon. *)
Fixpoint colon_free (s : string) : bool :=
  match s with
  | EmptyString => true
  | String c rest => negb (Ascii.eqb c ":") && colon_free rest
  end.

(** The value of a list of numbers read as digits of base 60, the greatest
    first. *)
Definition sexagesimal (vs : list Z) : Z :=
  foldl (fun acc v => 60 * acc + v)%Z 0%Z vs.

End DurationWords.

Module RegistryWords.

Import PlayerTs PlayerMore.

(** The names of the collection, in iteration order. *)
Definition names (p : Player) : list string := (extractors p).*1.

(** Every queue of the table is registered under its own [dmGuild]. *)
Definition keyed_by_guild (p : Player) : Prop :=
  forall key q, getQueue p key = Some q -> dmGuild q = key.

(** A [destroy] that resolves, and removes the queue from the table as
    the queue's own key. *)
Definition removing (q : Queue) (table : gmap string Queue)
  : Eff.Outcome unit * gmap string Queue :=
  (Eff.Returned tt, delete (dmGuild q) table).

(** An options object with no member. *)
Definition no_member : PlayerOptions :=
  {| metadata := None; volumeSmoothness := None; ytdlOptions := None |}.

End RegistryWords.

Module ResultWords.

Import PlayerTs.

(** A result and the world after the search agree: every track of the
    result refers to the playlist of the result (to none when the result
    has none), and that [Playlist] instance holds the tracks of the
    result. *)
Definition linked (res : PlayerSearchResult) (w : World) : Prop :=
  Forall (fun t => TrackTs.playlist t = playlist res) (tracks res)
  /\ forall r,
       playlist res = Some r ->
       exists pl, playlists w !! r = Some pl /\ playlist_tracks pl = tracks res.

(** The result of a returned search; the empty result stands for a search
    that throws. *)
Definition result_of (c : Eff.Outcome PlayerSearchResult * World)
  : PlayerSearchResult :=
  match c.1 with
  | Eff.Returned res => res
  | Eff.Thrown _ => empty_result
  end.

(** The song infos that resolve, in the order of their links. *)
Definition resolved_infos (s : Sources) (urls : list string) : list TimedItem :=
  omap (fun u => caught (soundcloud_getSongInfo s u)) urls.

(** Every [handle] among the uses is that of a registered extractor whose
    [validate] accepts the query. *)
Definition vetted (exts : list (string * ExtractorModel)) (q : string)
    (evs : list Event) : Prop :=
  forall name,
    In (Handled name) evs ->
    exists e, In (name, e) exts /\ validate e q = true.

(** Matches every query; its [handle] is rejected. *)
Definition broken : ExtractorModel :=
  {| validate := fun _ => true;
     handle := fun _ => Eff.Thrown (Eff.Rejection "ECONNRESET") |}.

(** A SoundCloud search that finds three links; the info of the second
    one is rejected. *)
Definition flaky : Sources :=
  {| QueryResolver_resolve := fun _ => SOUNDCLOUD_SEARCH;
     ytdlGetInfo := fun _ => Rejected "ENOTFOUND";
     YouTube_search := fun _ => Rejected "ENOTFOUND";
     soundcloud_search := fun _ => Resolved (Some ["a"; "b"; "c"]);
     soundcloud_getSongInfo := fun u =>
       if String.eqb u "b" then Rejected "ECONNRESET"
       else Resolved (Some (SearchInputs.song u));
     Spotify_getData_song := fun _ => Rejected "ENOTFOUND";
     Spotify_getData := fun _ => Rejected "ENOTFOUND";
     soundcloud_getPlaylist := fun _ => Rejected "ENOTFOUND";
     YouTube_getPlaylist := fun _ => Rejected "ENOTFOUND";
     YouTube_fetch := fun _ => Rejected "ENOTFOUND" |}.

Definition soundcloud_only : SearchOptions :=
  {| requestedBy := None; searchEngine := Some (Engine SOUNDCLOUD_SEARCH);
     blockExtractor := true |}.

End ResultWords.

(** * Properties *)

Import Eff Js.
Import TrackInputs.

(** ** escapeMarkdown *)

Section Escape.

Import TrackTs.



End Escape.

(** What the passes do to markers, on the texts of the source's own
    patterns. *)
Example escapeMarkdown_bold :
  TrackTs.escapeMarkdown "**bold** and _it_" no_spoiler = "\*\*bold\*\* and \_it\_".
Proof. reflexivity. Qed.

Example escapeItalic_groups :
  TrackTs.escapeItalic "*a* **b** ***c***" = "\*a\* **b** \***c**\*".
Proof. reflexivity. Qed.

Example escapeInlineCode_runs :
  TrackTs.escapeInlineCode "`a` ``b`` ```c```" = "\`a\` \`\`b\`\` ```c```".
Proof. reflexivity. Qed.

(** With [codeBlockContent] false the inside of a fenced block is kept and
    the fences are escaped. *)
Example escapeMarkdown_codeBlockContent :
  TrackTs.escapeMarkdown "a```*b*```*c*"
    {| TrackTs.codeBlock := None; TrackTs.inlineCode := None; TrackTs.bold := None;
       TrackTs.italic := None; TrackTs.underline := None;
       TrackTs.strikethrough := None; TrackTs.spoiler := Some false;
       TrackTs.inlineCodeContent := None; TrackTs.codeBlockContent := Some false |}
  = "a\`\`\`*b*\`\`\`\*c\*".
Proof. reflexivity. Qed.

(** The spoiler pass matches the empty string at every position. *)
Example escapeSpoiler_every_position :
  TrackTs.escapeSpoiler "ab" = "\|\|a\|\|b\|\|"
  /\ TrackTs.escapeSpoiler "" = "\|\|"
  /\ TrackTs.escapeMarkdown "ab" TrackTs.no_options = "\|\|a\|\|b\|\|".
Proof. repeat split. Qed.

(** Two tildes are escaped once: the escaped text has no two tildes in a
    row. *)
Example escapeMarkdown_strikethrough :
  TrackTs.escapeMarkdown "~~" no_spoiler = "\~\~"
  /\ TrackTs.escapeMarkdown "\~\~" no_spoiler = "\~\~".
Proof. repeat split. Qed.

(** ** The escape passes *)

Section EscapeMore.

Import TrackTs EscapeWords.

Lemma append_cons c (a b : string) : String c a ++ b = String c (a ++ b).
Proof. reflexivity. Qed.

Lemma append_empty_l (b : string) : EmptyString ++ b = b.
Proof. reflexivity. Qed.

Lemma append_empty_r (a : string) : a ++ EmptyString = a.
Proof.
  induction a as [|x a IH]; [reflexivity|]. now rewrite append_cons, IH.
Qed.

Lemma prefix_true s : forall t,
  String.prefix s t = true -> exists rest, t = s ++ rest.
Proof.
  induction s as [|c s IH]; intros t H.
  - exists t. reflexivity.
  - destruct t as [|d t]; [discriminate|]. simpl in H.
    destruct (ascii_dec c d) as [->|]; [|discriminate].
    destruct (IH t H) as [rest ->]. now exists rest.
Qed.

Lemma drop_app matched : forall rest,
  drop (String.length matched) (matched ++ rest) = rest.
Proof. induction matched as [|c m IH]; intros rest; simpl; [reflexivity | apply IH]. Qed.

(** Putting backslashes in: the relation is reflexive and transitive, and
    goes through concatenation. *)
Lemma backslashed_refl s : backslashed s s.
Proof. induction s as [|c s IH]; now constructor. Qed.

Lemma backslashed_app a a' b b' :
  backslashed a a' -> backslashed b b' -> backslashed (a ++ b) (a' ++ b').
Proof.
  intros Ha Hb. induction Ha as [|c s t _ IH|s t _ IH].
  - exact Hb.
  - rewrite !append_cons. now constructor.
  - rewrite append_cons. now constructor.
Qed.

Lemma backslashed_trans a b c :
  backslashed a b -> backslashed b c -> backslashed a c.
Proof.
  intros Hab Hbc. revert a Hab.
  induction Hbc as [|x s t _ IH|s t _ IH]; intros a Hab.
  - exact Hab.
  - inversion Hab as [|? a' ? Ha'|? ? Ha']; subst.
    + constructor. now apply IH.
    + apply backslashed_put. now apply IH.
  - apply backslashed_put. now apply IH.
Qed.

(** What it keeps: the text without its backslashes, and so the count of
    every other code unit. *)
Lemma backslashed_unescaped s t : backslashed s t -> unescaped t = unescaped s.
Proof.
  induction 1 as [|c s t _ IH|s t _ IH]; [reflexivity | | exact IH].
  cbn [unescaped]. now rewrite IH.
Qed.

(** A pass of an inserting matcher puts backslashes in and does nothing
    else. *)
Lemma replace_from_backslashed {St : Type} (m : matcher St) :
  inserting m ->
  forall t k st prev, backslashed (drop k t) (replace_from m st prev k t).
Proof.
  intros Hm t. induction t as [|c r IH]; intros k st prev.
  - destruct k as [|k]; [|constructor]. cbn [replace_from drop].
    destruct (m st prev EmptyString) as [[[n repl] st']|] eqn:E; [|constructor].
    destruct (Hm _ _ _ _ _ _ E) as (matched & rest & Ht & Hn & Hr).
    destruct matched; [|discriminate Ht].
    now rewrite append_empty_r.
  - destruct k as [|k]; cbn [replace_from drop]; [|apply IH].
    destruct (m st prev (String c r)) as [[[n repl] st']|] eqn:E.
    + destruct (Hm _ _ _ _ _ _ E) as (matched & rest & Ht & Hn & Hr).
      destruct n as [|n].
      * destruct matched; [|discriminate Hn].
        apply (backslashed_app EmptyString repl (String c r)); [exact Hr|].
        constructor. apply (IH 0 st' (Some c)).
      * destruct matched as [|c' matched]; [discriminate Hn|].
        rewrite append_cons in Ht. injection Ht as <- Hrest. injection Hn as Hn.
        subst r n. rewrite <- append_cons.
        apply backslashed_app; [exact Hr|].
        pose proof (IH (String.length matched) st' (Some c)) as H.
        now rewrite drop_app in H.
    + constructor. apply (IH 0 st (Some c)).
Qed.

Lemma replace_all_backslashed {St : Type} (m : matcher St) (init : St) t :
  inserting m -> backslashed t (replace_all m init t).
Proof. intros Hm. apply (replace_from_backslashed m Hm t 0). Qed.

(** Each marker pattern of the source is inserting. *)
Ltac matched_prefix H :=
  apply prefix_true in H as [? ->].

Ltac put_backslashes :=
  cbv [str append]; repeat constructor.

Lemma codeBlock_re_inserting : inserting codeBlock_re.
Proof.
  intros st prev t n repl st'. unfold codeBlock_re.
  destruct (String.prefix "```" t) eqn:H; [|discriminate]. intros [= <- <- <-].
  matched_prefix H. exists "```". eexists. repeat split. put_backslashes.
Qed.

Lemma strikethrough_re_inserting : inserting strikethrough_re.
Proof.
  intros st prev t n repl st'. unfold strikethrough_re.
  destruct (String.prefix "~~" t) eqn:H; [|discriminate]. intros [= <- <- <-].
  matched_prefix H. exists "~~". eexists. repeat split. put_backslashes.
Qed.

Lemma inlineCode_re_inserting : inserting inlineCode_re.
Proof.
  intros st prev t n repl st'. unfold inlineCode_re.
  destruct (not_char backtick prev); [|discriminate].
  destruct (String.prefix "``" t) eqn:H2.
  - destruct (not_char backtick (head (drop 2 t))); cbn [andb].
    + intros [= <- <- <-]. matched_prefix H2. exists "``". eexists.
      repeat split. put_backslashes.
    + destruct (String.prefix "`" t) eqn:H1; cbn [andb]; [|discriminate].
      destruct (not_char backtick (head (drop 1 t))); [|discriminate].
      intros [= <- <- <-]. matched_prefix H1. exists "`". eexists.
      repeat split. put_backslashes.
  - cbn [andb]. destruct (String.prefix "`" t) eqn:H1; cbn [andb]; [|discriminate].
    destruct (not_char backtick (head (drop 1 t))); [|discriminate].
    intros [= <- <- <-]. matched_prefix H1. exists "`". eexists.
    repeat split. put_backslashes.
Qed.

Lemma italic_re_inserting mk : inserting (italic_re mk).
Proof.
  intros i prev t n repl i'. unfold italic_re.
  destruct (not_char mk prev); cbn [andb]; [|discriminate].
  destruct (String.prefix (str mk) t) eqn:H; [|discriminate].
  matched_prefix H. change (drop 1 (str mk ++ x)) with x.
  destruct x as [|c after].
  - intros [= <- <- <-]. exists (str mk), EmptyString. repeat split.
    put_backslashes.
  - destruct (Ascii.eqb_spec c mk) as [->|Hc]; cbn [negb].
    + destruct (String.prefix (str mk) after) eqn:H'; [|discriminate].
      matched_prefix H'. intros [= <- <- <-].
      exists (String mk (String mk (str mk))). eexists. split; [reflexivity|].
      split; [reflexivity|].
      destruct (Nat.odd (S i)).
      * put_backslashes.
      * cbv [str append]. do 2 apply backslashed_keep.
        apply backslashed_put. repeat constructor.
    + intros [= <- <- <-]. exists (String mk (String c EmptyString)), after.
      repeat split. put_backslashes.
Qed.

Lemma double_re_inserting mk : inserting (double_re mk).
Proof.
  intros i prev t n repl i'. unfold double_re. cbv zeta.
  destruct (String.prefix (str mk ++ str mk) t) eqn:H; [|discriminate].
  matched_prefix H. change (drop 2 ((str mk ++ str mk) ++ x)) with x.
  destruct (String.prefix (str mk) x) eqn:H'.
  - matched_prefix H'. intros [= <- <- <-].
    exists (String mk (String mk (str mk))). eexists. split; [reflexivity|].
    split; [reflexivity|]. destruct (Nat.odd (S i)).
    + cbv [str append]. apply backslashed_keep.
      apply backslashed_put, backslashed_keep, backslashed_put. repeat constructor.
    + cbv [str append]. apply backslashed_put, backslashed_keep.
      apply backslashed_put. repeat constructor.
  - intros [= <- <- <-]. exists (str mk ++ str mk), x. split; [reflexivity|].
    split; [reflexivity|]. cbv [str append].
    apply backslashed_put, backslashed_keep, backslashed_put. repeat constructor.
Qed.

Lemma backslashed_if (b : bool) (f : string -> string) s t :
  (forall x, backslashed x (f x)) ->
  backslashed s t -> backslashed s (if b then f t else t).
Proof.
  intros Hf H. destruct b; [|exact H]. eapply backslashed_trans; [exact H | apply Hf].
Qed.

Lemma escapeItalic_backslashed x : backslashed x (escapeItalic x).
Proof.
  unfold escapeItalic. cbv zeta.
  eapply backslashed_trans.
  - apply (replace_all_backslashed (italic_re star) 0), italic_re_inserting.
  - apply (replace_all_backslashed (italic_re underscore) 0), italic_re_inserting.
Qed.

(** With the spoiler pass off the marker passes put backslashes in and do
    nothing else. *)
Lemma escapeMarkers_backslashed t o :
  spoiler o = Some false -> backslashed t (escapeMarkers t o).
Proof.
  intros Hs. unfold escapeMarkers. rewrite Hs.
  change (flag (Some false)) with false. cbv iota zeta.
  apply backslashed_if;
    [intros x; apply replace_all_backslashed, strikethrough_re_inserting|].
  apply backslashed_if;
    [intros x; apply replace_all_backslashed, double_re_inserting|].
  apply backslashed_if;
    [intros x; apply replace_all_backslashed, double_re_inserting|].
  apply backslashed_if; [apply escapeItalic_backslashed|].
  apply backslashed_if;
    [intros x; apply replace_all_backslashed, codeBlock_re_inserting|].
  apply backslashed_if;
    [intros x; apply replace_all_backslashed, inlineCode_re_inserting|].
  apply backslashed_refl.
Qed.

Lemma join_rejoined sep p ps : join sep (p :: ps) = p ++ rejoined sep ps.
Proof.
  unfold join. revert p. induction ps as [|x ps IH]; intros p.
  - cbn [String.concat rejoined]. now rewrite append_empty_r.
  - change (String.concat sep (p :: x :: ps)) with (p ++ sep ++ String.concat sep (x :: ps)).
    now rewrite IH.
Qed.

(** [split] cuts the text at the separators and nowhere else: the pieces
    with the separator put back between them are the text. *)
Lemma split_from_rejoined sep sepstr :
  separates sep sepstr ->
  forall t prev k,
    (split_from sep prev k t).1 ++ rejoined sepstr (split_from sep prev k t).2
    = drop k t.
Proof.
  intros Hsep t. induction t as [|c r IH]; intros prev k.
  - now destruct k.
  - cbn [split_from]. destruct k as [|k]; [|apply IH].
    cbn [drop]. destruct (sep prev (String c r)) as [[|n]|] eqn:E.
    + specialize (IH (Some c) 0). destruct (split_from sep (Some c) 0 r) as [p ps].
      cbn [fst snd drop] in *. now rewrite append_cons, IH.
    + destruct (Hsep _ _ _ E) as (Hlen & rest & Ht).
      destruct sepstr as [|c' s']; [discriminate Hlen|].
      rewrite append_cons in Ht. injection Ht as <- ->. injection Hlen as <-.
      specialize (IH (Some c) (String.length s')). rewrite drop_app in IH.
      destruct (split_from sep (Some c) (String.length s') (s' ++ rest)) as [p ps].
      cbn [fst snd rejoined] in *.
      now rewrite append_empty_l, append_cons, IH.
    + specialize (IH (Some c) 0). destruct (split_from sep (Some c) 0 r) as [p ps].
      cbn [fst snd drop] in *. now rewrite append_cons, IH.
Qed.

Lemma split_rejoined sep sepstr t :
  separates sep sepstr -> join sepstr (split sep t) = t.
Proof.
  intros Hsep. unfold split.
  pose proof (split_from_rejoined sep sepstr Hsep t None 0) as H.
  destruct (split_from sep None 0 t) as [p ps]. now rewrite join_rejoined.
Qed.

Lemma sep_backticks_separates : separates (sep_string "```") "```".
Proof.
  intros prev t k. unfold sep_string.
  destruct (String.prefix "```" t) eqn:H; [|discriminate]. intros [= <-].
  split; [reflexivity|]. now apply prefix_true.
Qed.

Lemma sep_inlineCode_separates : separates sep_inlineCode "`".
Proof.
  intros prev t k. unfold sep_inlineCode.
  destruct (not_char backtick prev); cbn [andb]; [|discriminate].
  destruct (String.prefix "`" t) eqn:H; cbn [andb]; [|discriminate].
  destruct (not_char backtick (head (drop 1 t))); [|discriminate]. intros [= <-].
  split; [reflexivity|]. now apply prefix_true.
Qed.

(** Joining pieces with backslashes put in, with a separator with
    backslashes put in. *)
Lemma backslashed_rejoined sep sep' (l l' : list string) :
  backslashed sep sep' ->
  Forall2 backslashed l l' ->
  backslashed (rejoined sep l) (rejoined sep' l').
Proof.
  intros Hsep H. induction H as [|x x' l l' Hx _ IH]; [constructor|].
  cbn [rejoined]. now repeat apply backslashed_app.
Qed.

Lemma imap_backslashed (l : list string) : forall (g : nat -> string -> string),
  (forall i x, backslashed x (g i x)) -> Forall2 backslashed l (imap g l).
Proof.
  induction l as [|x l IH]; intros g Hg; cbn [imap]; constructor; [apply Hg|].
  apply IH. intros i y. apply Hg.
Qed.

Lemma map_pieces_backslashed f sep sep' sepstr t :
  separates sep sepstr ->
  backslashed sepstr sep' ->
  (forall x, backslashed x (f x)) ->
  backslashed t (join sep' (map_pieces f (split sep t))).
Proof.
  intros Hsep Hsep' Hf.
  rewrite <- (split_rejoined sep sepstr t Hsep) at 1.
  unfold split. destruct (split_from sep None 0 t) as [p ps].
  assert (Forall2 backslashed (p :: ps) (map_pieces f (p :: ps))) as H.
  { apply imap_backslashed. intros i x.
    destruct (negb (i mod 2 =? 0)%nat && negb (i =? List.length (p :: ps) - 1)%nat);
      [apply backslashed_refl | apply Hf]. }
  remember (map_pieces f (p :: ps)) as l' eqn:El. clear El.
  inversion H as [|? p' ? ps' Hp Hps E1 E2]; subst.
  rewrite !join_rejoined. apply backslashed_app; [exact Hp|].
  now apply backslashed_rejoined.
Qed.

Lemma escapeMarkdown_from_inline_backslashed t o :
  spoiler o = Some false -> backslashed t (escapeMarkdown_from_inline t o).
Proof.
  intros Hs. unfold escapeMarkdown_from_inline.
  destruct (negb (flag (inlineCodeContent o))); [|now apply escapeMarkers_backslashed].
  apply (map_pieces_backslashed _ _ _ "`" t sep_inlineCode_separates).
  - destruct (flag (inlineCode o)); [put_backslashes | apply backslashed_refl].
  - intros x. now apply escapeMarkers_backslashed.
Qed.

End EscapeMore.

(** X1: with the spoiler pass off, [escapeMarkdown] puts backslashes in and
    does nothing else, whatever the text and the other options: every code
    unit of the text, its own backslashes included, is in the escaped text
    in the same order, and what the escaped text has besides are
    backslashes.  So the two are the same once their backslashes are taken
    out. *)
Theorem escapeMarkdown_only_adds_backslashes (text : string)
    (o : TrackTs.EscapeMarkdownOptions) :
  TrackTs.spoiler o = Some false ->
  EscapeWords.backslashed text (TrackTs.escapeMarkdown text o)
  /\ EscapeWords.unescaped (TrackTs.escapeMarkdown text o)
     = EscapeWords.unescaped text.
Proof.
  intros Hs.
  assert (B : EscapeWords.backslashed text (TrackTs.escapeMarkdown text o)).
  { unfold TrackTs.escapeMarkdown.
    destruct (negb (TrackTs.flag (TrackTs.codeBlockContent o)));
      [|now apply escapeMarkdown_from_inline_backslashed].
    apply (map_pieces_backslashed _ _ _ "```" text sep_backticks_separates).
    - destruct (TrackTs.flag (TrackTs.codeBlock o));
        [repeat constructor | apply backslashed_refl].
    - intros x. now apply escapeMarkdown_from_inline_backslashed. }
  split; [exact B | now apply backslashed_unescaped].
Qed.

Lemma escapeMarkdown_only_adds_backslashes_witness :
  EscapeWords.backslashed "a `b` **c** ```d``` \e"
    (TrackTs.escapeMarkdown "a `b` **c** ```d``` \e" TrackInputs.no_spoiler)
  /\ EscapeWords.unescaped
       (TrackTs.escapeMarkdown "a `b` **c** ```d``` \e" TrackInputs.no_spoiler)
     = EscapeWords.unescaped "a `b` **c** ```d``` \e".
Proof.
  apply (escapeMarkdown_only_adds_backslashes "a `b` **c** ```d``` \e"
           TrackInputs.no_spoiler).
  reflexivity.
Defined.

(** *** One application is enough *)

Section EscapeOnce.

Import TrackTs EscapeWords.























End EscapeOnce.


(** The other characters that are looked for are escaped again in the same
    way, and so is the third of three tildes. *)
Example escapeMarkdown_escapes_again_others :
  TrackTs.escapeMarkdown (TrackTs.escapeMarkdown "`" no_spoiler) no_spoiler = "\\`"
  /\ TrackTs.escapeMarkdown "`" no_spoiler = "\`"
  /\ TrackTs.escapeMarkdown (TrackTs.escapeMarkdown "_" no_spoiler) no_spoiler = "\\_"
  /\ TrackTs.escapeMarkdown "_" no_spoiler = "\_"
  /\ TrackTs.escapeMarkdown (TrackTs.escapeMarkdown "~~~" no_spoiler) no_spoiler
     = "\~\\~\~"
  /\ TrackTs.escapeMarkdown "~~~" no_spoiler = "\~\~~".
Proof. repeat split. Qed.



Section SpoilerMore.

Import TrackTs EscapeWords.

Lemma length_append (a b : string) :
  String.length (a ++ b) = String.length a + String.length b.
Proof.
  induction a as [|c a IH]; [reflexivity|].
  rewrite append_cons. cbn [String.length]. now rewrite IH.
Qed.

Lemma replace_from_spoiler t : forall st prev,
  replace_from spoiler_re st prev 0 t = "\|\|" ++ barred t.
Proof.
  induction t as [|c r IH]; intros st prev; [reflexivity|].
  cbn [replace_from spoiler_re barred]. now rewrite IH.
Qed.

Lemma barred_length t : String.length (barred t) = 5 * String.length t.
Proof.
  induction t as [|c r IH]; [reflexivity|].
  cbn [barred String.length]. rewrite length_append, IH.
  change (String.length "\|\|") with 4. lia.
Qed.

Lemma bars_append a b : bars (a ++ b) = bars a + bars b.
Proof.
  induction a as [|c a IH]; [reflexivity|].
  rewrite append_cons. cbn [bars]. rewrite IH. lia.
Qed.

Lemma bars_barred t : bars (barred t) = bars t + 2 * String.length t.
Proof.
  induction t as [|c r IH]; [reflexivity|].
  cbn [barred bars String.length]. rewrite bars_append, IH.
  change (bars "\|\|") with 2. lia.
Qed.

Lemma bars_backslashed s t : backslashed s t -> bars t = bars s.
Proof.
  induction 1 as [|c s t _ IH|s t _ IH]; [reflexivity | | exact IH].
  cbn [bars]. now rewrite IH.
Qed.

(** Under the default options the spoiler pass is the last one. *)
Lemma escapeMarkdown_default text :
  escapeMarkdown text no_options
  = escapeSpoiler (escapeMarkdown text TrackInputs.no_spoiler).
Proof. reflexivity. Qed.

Lemma bars_escapeMarkdown_default text :
  bars (escapeMarkdown text no_options)
  = bars text
    + 2 * S (String.length (escapeMarkdown text TrackInputs.no_spoiler)).
Proof.
  rewrite escapeMarkdown_default. unfold escapeSpoiler, replace_all.
  rewrite replace_from_spoiler, bars_append, bars_barred.
  rewrite (bars_backslashed text (escapeMarkdown text TrackInputs.no_spoiler))
    by (apply (escapeMarkdown_from_inline_backslashed text TrackInputs.no_spoiler);
        reflexivity).
  change (bars "\|\|") with 2. lia.
Qed.

End SpoilerMore.

(** X2: the spoiler pass, whose pattern is built from two bars and so is an
    alternation of empty alternatives, matches the empty text at every
    position: it writes two escaped bars at the start of the text and after
    each of its code units, whatever they are.  A text of n code units
    becomes one of 5n + 4. *)
Theorem escapeSpoiler_at_every_position (text : string) :
  TrackTs.escapeSpoiler text = "\|\|" ++ EscapeWords.barred text
  /\ String.length (TrackTs.escapeSpoiler text) = 5 * String.length text + 4.
Proof.
  assert (E : TrackTs.escapeSpoiler text = "\|\|" ++ EscapeWords.barred text)
    by apply replace_from_spoiler.
  split; [exact E|].
  rewrite E, length_append, barred_length.
  change (String.length "\|\|") with 4. lia.
Qed.

(** X3: with the default options no text comes out of [escapeMarkdown] as it
    went in: the result has more bars than the text.  So the title of every
    constructed [Track] differs from the title it was given. *)
Theorem escapeMarkdown_default_changes (text : string) :
  EscapeWords.bars text < EscapeWords.bars (TrackTs.escapeMarkdown text TrackTs.no_options)
  /\ TrackTs.escapeMarkdown text TrackTs.no_options <> text
  /\ (forall fresh data,
        TrackTs.title (TrackTs._patch fresh data)
        <> default "" (TrackTs.raw_title data)).
Proof.
  assert (B : forall t,
    EscapeWords.bars t < EscapeWords.bars (TrackTs.escapeMarkdown t TrackTs.no_options))
    by (intros t; rewrite bars_escapeMarkdown_default; lia).
  assert (N : forall t, TrackTs.escapeMarkdown t TrackTs.no_options <> t)
    by (intros t E; specialize (B t); rewrite E in B; lia).
  split; [apply B|]. split; [apply N|].
  intros fresh data. apply N.
Qed.

(** ** durationMS *)

Section Duration.

Import TrackTs UtilTs.

Local Open Scope Z_scope.

Local Arguments digit_char : simpl never.
Local Arguments Z.pow : simpl never.
Local Arguments Z.mul : simpl never.
Local Arguments Z.add : simpl never.
Local Arguments Z.modulo : simpl never.
Local Arguments Z.div : simpl never.
Local Arguments digit_value : simpl never.

Lemma digit_char_facts d :
  0 <= d < 10 ->
  is_digit (digit_char d) = true /\ digit_value 10 (digit_char d) = Some d.
Proof.
  intros H.
  assert (d = 0 \/ d = 1 \/ d = 2 \/ d = 3 \/ d = 4 \/ d = 5 \/ d = 6
          \/ d = 7 \/ d = 8 \/ d = 9) as C by lia.
  repeat (destruct C as [-> | C]; [now vm_compute|]). subst d. now vm_compute.
Qed.

Lemma is_digit_code c : is_digit c = true -> 48 <= code c <= 57.
Proof. unfold is_digit. intros H. apply andb_true_iff in H. lia. Qed.

Lemma is_digit_not c d : is_digit d = false -> is_digit c = true -> c <> d.
Proof. congruence. Qed.

Lemma digit_not_whitespace c : is_digit c = true -> is_whitespace c = false.
Proof. intros H%is_digit_code. unfold is_whitespace. lia. Qed.

Lemma prefix_digit d s c rest :
  is_digit d = false -> is_digit c = true ->
  String.prefix (String d s) (String c rest) = false.
Proof.
  intros Hd Hc. simpl. destruct (ascii_dec d c) as [->|]; [congruence | reflexivity].
Qed.

Lemma digits_only_app a b :
  digits_only a = true -> digits_only b = true -> digits_only (a ++ b) = true.
Proof.
  induction a as [|c a IH]; simpl; [easy|].
  intros [Hc Ha]%andb_true_iff Hb. now rewrite Hc, IH.
Qed.

(** The digits written are digits, and reading them back continues the
    number read so far. *)
Lemma decimal_digits_digits f : forall n s,
  0 <= n -> digits_only s = true -> digits_only (decimal_digits f n s) = true.
Proof.
  induction f as [|f IH]; intros n s Hn Hs; cbn [decimal_digits digits_only].
  - destruct (digit_char_facts (n mod 10)) as [-> _];
      [apply Z.mod_pos_bound; lia | exact Hs].
  - assert (digits_only (String (digit_char (n mod 10)) s) = true) as Hs'.
    { cbn [digits_only].
      destruct (digit_char_facts (n mod 10)) as [-> _];
      [apply Z.mod_pos_bound; lia | exact Hs]. }
    destruct (n <? 10); [exact Hs'|].
    apply IH; [apply Z.div_pos; lia | exact Hs'].
Qed.

Lemma decimal_digits_nonempty f : forall n s, decimal_digits f n s <> EmptyString.
Proof.
  induction f as [|f IH]; intros n s; cbn [decimal_digits]; [discriminate|].
  destruct (n <? 10); [discriminate | apply IH].
Qed.

Lemma parse_one_digit n s a :
  0 <= n < 10 ->
  parse_digits 10 a (String (digit_char n) s)
  = parse_digits 10 (Some (default 0 a * 10 + n)) s.
Proof.
  intros Hn. cbn [parse_digits].
  now destruct (digit_char_facts n Hn) as [_ ->].
Qed.

Lemma parse_decimal_digits f : forall n s a,
  0 <= n < 10 ^ (Z.of_nat f + 1) ->
  exists k, 0 <= k /\
    parse_digits 10 a (decimal_digits f n s)
    = parse_digits 10 (Some (default 0 a * 10 ^ k + n)) s.
Proof.
  induction f as [|f IH]; intros n s a Hn.
  - exists 1. split; [lia|]. cbn [decimal_digits].
    change (Z.of_nat 0 + 1) with 1 in Hn. rewrite Z.pow_1_r in *.
    assert (n mod 10 = n) as -> by (apply Z.mod_small; lia).
    now rewrite parse_one_digit.
  - cbn [decimal_digits]. destruct (Z.ltb_spec n 10) as [Hlt|Hge].
    + exists 1. split; [lia|]. rewrite Z.pow_1_r.
      assert (n mod 10 = n) as -> by (apply Z.mod_small; lia).
      rewrite parse_one_digit by lia. reflexivity.
    + destruct (IH (n / 10) (String (digit_char (n mod 10)) s) a) as (k & Hk & E).
      { split; [apply Z.div_pos; lia|].
        apply Z.div_lt_upper_bound; [lia|].
        replace (Z.of_nat (S f) + 1) with (Z.succ (Z.of_nat f + 1)) in Hn by lia.
        rewrite Z.pow_succ_r in Hn by lia. lia. }
      exists (k + 1). split; [lia|]. rewrite E.
      rewrite parse_one_digit by (apply Z.mod_pos_bound; lia).
      do 2 f_equal. cbn [default from_option]. unfold Datatypes.id.
      rewrite Z.pow_add_r, Z.pow_1_r by lia.
      pose proof (Z.div_mod n 10 ltac:(lia)). lia.
Qed.

Lemma toString_bound n : 0 <= n -> n < 10 ^ (Z.of_nat (Z.to_nat (Z.log2 n)) + 1).
Proof.
  intros Hn. rewrite Z2Nat.id by apply Z.log2_nonneg.
  destruct (Z.eq_dec n 0) as [->|Hz]; [reflexivity|].
  pose proof (Z.log2_spec n ltac:(lia)) as [_ Hlt].
  pose proof (Z.log2_nonneg n) as Hl.
  eapply Z.lt_le_trans; [exact Hlt|].
  replace (Z.succ (Z.log2 n)) with (Z.log2 n + 1) by lia.
  apply Z.pow_le_mono_l. lia.
Qed.

Lemma toString_digits n : 0 <= n -> digits_only (toString n) = true.
Proof. intros Hn. now apply decimal_digits_digits. Qed.

Lemma pad2_digits n : 0 <= n -> digits_only (pad2 n) = true.
Proof.
  intros Hn. unfold pad2.
  destruct (n <? 10); cbn [digits_only]; rewrite ?andb_true_l; now apply toString_digits.
Qed.

(** On a text of digits [parseInt] reads all of them in base ten. *)
Lemma of_Z_safe z : - 2 ^ 53 <= z <= 2 ^ 53 -> of_Z z = Exact z.
Proof.
  intros H. unfold of_Z, safe.
  destruct (Z.leb_spec (Z.abs z) (2 ^ 53)) as [_|L]; [reflexivity | lia].
Qed.

Lemma parseInt_digits s :
  digits_only s = true -> s <> EmptyString ->
  parseInt s
  = match parse_digits 10 None s with
    | Some n => of_Z n
    | None => NaN
    end.
Proof.
  intros Hd Hne. destruct s as [|c rest]; [congruence|].
  cbn [digits_only] in Hd. apply andb_true_iff in Hd as [Hc Hrest].
  assert (String.prefix "0x" (String c rest) = false
          /\ String.prefix "0X" (String c rest) = false) as [Hx HX].
  { cbn [String.prefix]. destruct (ascii_dec "0" c) as [<-|]; [|easy].
    destruct rest as [|c' rest']; [easy|].
    cbn [digits_only] in Hrest. apply andb_true_iff in Hrest as [Hc' _].
    split; apply prefix_digit; (reflexivity || exact Hc'). }
  unfold parseInt. cbv zeta. cbn [trim_start].
  rewrite (digit_not_whitespace c Hc).
  rewrite (prefix_digit "-" EmptyString c rest eq_refl Hc).
  rewrite (prefix_digit "+" EmptyString c rest eq_refl Hc).
  cbn [orb]. rewrite Hx, HX. cbn [orb].
  reflexivity.
Qed.

Lemma parseInt_toString n : 0 <= n <= 2 ^ 53 -> parseInt (toString n) = Exact n.
Proof.
  intros [Hn Hb]. rewrite parseInt_digits
    by (now apply toString_digits || apply decimal_digits_nonempty).
  destruct (parse_decimal_digits _ n EmptyString None (conj Hn (toString_bound n Hn)))
    as (k & _ & E).
  unfold toString. rewrite E. cbn [parse_digits default].
  replace (0 * k + n) with n by lia. apply of_Z_safe. lia.
Qed.

Lemma parseInt_pad2 n : 0 <= n <= 2 ^ 53 -> parseInt (pad2 n) = Exact n.
Proof.
  intros [Hn Hb]. unfold pad2.
  destruct (n <? 10); [|now apply parseInt_toString].
  rewrite parseInt_digits;
    [|cbn [digits_only]; rewrite andb_true_l; now apply toString_digits | discriminate].
  change (String "0" (toString n)) with (String (digit_char 0) (toString n)).
  rewrite parse_one_digit by lia. cbn [default].
  destruct (parse_decimal_digits _ n EmptyString (Some (0 * 10 + 0))
              (conj Hn (toString_bound n Hn))) as (k & _ & E).
  unfold toString. rewrite E. cbn [parse_digits default].
  replace ((0 * 10 + 0) * k + n) with n by lia. apply of_Z_safe. lia.
Qed.

(** [split] at the colons of a text whose other units are digits. *)
Lemma sep_colon_digit prev c rest :
  is_digit c = true -> sep_string ":" prev (String c rest) = None.
Proof.
  intros Hc. unfold sep_string. now rewrite prefix_digit.
Qed.

Lemma sep_colon_colon prev rest : sep_string ":" prev (String ":" rest) = Some 1%nat.
Proof. now destruct rest. Qed.

Lemma split_from_digits t : forall prev,
  digits_only t = true -> split_from (sep_string ":") prev 0 t = (t, []).
Proof.
  induction t as [|c rest IH]; intros prev Hd; cbn [split_from]; [reflexivity|].
  cbn [digits_only] in Hd. apply andb_true_iff in Hd as [Hc Hrest].
  rewrite sep_colon_digit by exact Hc. now rewrite IH.
Qed.

Lemma split_from_colon a : forall prev rest,
  digits_only a = true ->
  split_from (sep_string ":") prev 0 (a ++ String ":" rest)
  = (a, let '(p, ps) := split_from (sep_string ":") (Some ":"%char) 0 rest in p :: ps).
Proof.
  induction a as [|c a IH]; intros prev rest Hd.
  - change (EmptyString ++ String ":" rest) with (String ":" rest).
    cbn [split_from]. rewrite sep_colon_colon.
    now destruct (split_from _ _ _ rest).
  - cbn [digits_only] in Hd. apply andb_true_iff in Hd as [Hc Ha].
    change (String c a ++ String ":" rest) with (String c (a ++ String ":" rest)).
    cbn [split_from]. rewrite sep_colon_digit by exact Hc.
    now rewrite IH.
Qed.

Lemma split_time_code h m s :
  digits_only h = true -> digits_only m = true -> digits_only s = true ->
  split (sep_string ":") (h ++ ":" ++ m ++ ":" ++ s) = [h; m; s].
Proof.
  intros Hh Hm Hs. unfold split.
  change (h ++ ":" ++ m ++ ":" ++ s) with (h ++ String ":" (m ++ String ":" s)).
  rewrite split_from_colon by exact Hh.
  rewrite split_from_colon by exact Hm.
  now rewrite split_from_digits.
Qed.

(** The units of the first three pieces. *)
Lemma times_units :
  times (Exact 60) 0 = Exact 1000
  /\ times (Exact 60) 1 = Exact 60000
  /\ times (Exact 60) 2 = Exact 3600000.
Proof. repeat split. Qed.

End Duration.

(** A value with a fraction of a second has no H:MM:SS text of its own:
    it is written as its whole seconds. *)
Example formatDurationMS_whole_seconds :
  UtilTs.formatDurationMS 1500 = "0:00:01"
  /\ UtilTs.formatDurationMS 1000 = "0:00:01"
  /\ TrackTs.durationMS_of "0:00:01" = Exact 1000%Z.
Proof. repeat split. Qed.

(** C2: for every number of milliseconds that an H:MM:SS text writes, a
    whole number of seconds within the integers a number holds exactly,
    parsing the formatted text gives the milliseconds back. *)
Theorem durationMS_roundtrip (ms : Z) :
  (0 <= ms <= 9007199254740991)%Z ->
  (ms mod 1000 = 0)%Z ->
  TrackTs.durationMS_of (UtilTs.formatDurationMS ms) = Exact ms.
Proof.
  intros [Hms Hb] Hmod.
  unfold TrackTs.durationMS_of, UtilTs.formatDurationMS, UtilTs.buildTimeCode,
    UtilTs.parseMS.
  cbn [UtilTs.hours UtilTs.minutes UtilTs.seconds].
  assert (0 <= ms / 3600000 <= 2 ^ 53)%Z as Hh
    by (change (2 ^ 53)%Z with 9007199254740992%Z;
        Z.to_euclidean_division_equations; lia).
  assert (0 <= (ms / 60000) mod 60 <= 2 ^ 53)%Z as Hm
    by (change (2 ^ 53)%Z with 9007199254740992%Z;
        Z.to_euclidean_division_equations; lia).
  assert (0 <= (ms / 1000) mod 60 <= 2 ^ 53)%Z as Hs
    by (change (2 ^ 53)%Z with 9007199254740992%Z;
        Z.to_euclidean_division_equations; lia).
  rewrite split_time_code
    by (apply toString_digits || apply pad2_digits; apply Hh || apply Hm || apply Hs).
  cbn [rev app imap foldl]. unfold compose.
  rewrite parseInt_toString, !parseInt_pad2 by assumption.
  destruct times_units as (-> & -> & ->).
  cbn [add mul].
  repeat (rewrite of_Z_safe
            by (change (2 ^ 53)%Z with 9007199254740992%Z;
                Z.to_euclidean_division_equations; lia);
          cbn [add]).
  f_equal. Z.to_euclidean_division_equations. lia.
Qed.

Lemma durationMS_roundtrip_witness :
  TrackTs.durationMS_of (UtilTs.formatDurationMS 3725000) = Exact 3725000%Z.
Proof. apply (durationMS_roundtrip 3725000); [lia | reflexivity]. Defined.

(** ** VoiceUtils *)

Section Voice.

Import VoiceUtilsTs.

Lemma join_with_options channel o v :
  join channel (Some o) v = channel_call channel (Boolean (deaf o)) v.
Proof. reflexivity. Qed.

Lemma channel_call_calls channel d v :
  calls (channel_call channel d v).2 = (calls v ++ [(channel_id channel, d)])%list.
Proof. unfold channel_call. now destruct (call_rejects channel d). Qed.

Lemma connect_accepted channel o v :
  call_rejects channel (Boolean (deaf o)) = None ->
  connect channel (Some o) v
  = (Returned {| sd_id := S (created v);
                 voiceConnection :=
                   {| conn_id := created v; conn_channel := channel_id channel;
                      selfDeaf := Boolean (deaf o) |};
                 connectionTimeout := maxTime o |},
     {| cache :=
          <[channel_id channel :=
              {| sd_id := S (created v);
                 voiceConnection :=
                   {| conn_id := created v; conn_channel := channel_id channel;
                      selfDeaf := Boolean (deaf o) |};
                 connectionTimeout := maxTime o |}]> (cache v);
        created := S (S (created v));
        calls := (calls v ++ [(channel_id channel, Boolean (deaf o))])%list |}).
Proof.
  intros Hc. unfold connect, join, bind, member, ret, channel_call. simpl.
  now rewrite Hc.
Qed.

Lemma connect_rejected channel o v e :
  call_rejects channel (Boolean (deaf o)) = Some e ->
  connect channel (Some o) v
  = (Thrown e,
     {| cache := cache v; created := created v;
        calls := (calls v ++ [(channel_id channel, Boolean (deaf o))])%list |}).
Proof.
  intros Hc. unfold connect, join, bind, member, ret, channel_call. simpl.
  now rewrite Hc.
Qed.

(** The bound on the cached ids holds initially and after every
    [connect], whatever its outcome. *)
Lemma fresh_bounded : VoiceInputs.cache_bounded VoiceInputs.fresh.
Proof.
  intros key d H. unfold VoiceInputs.fresh in H. cbn [cache] in H.
  now rewrite lookup_empty in H.
Qed.

Lemma connect_bounded channel options v :
  VoiceInputs.cache_bounded v ->
  VoiceInputs.cache_bounded (connect channel options v).2.
Proof.
  intros Hv. destruct options as [o|]; [|exact Hv].
  destruct (call_rejects channel (Boolean (deaf o))) as [e|] eqn:Hc.
  - rewrite (connect_rejected _ _ _ _ Hc). exact Hv.
  - rewrite (connect_accepted _ _ _ Hc). intros key d. cbn [snd cache created].
    rewrite lookup_insert. case_decide.
    + intros [= <-]. simpl. lia.
    + intros H'. specialize (Hv key d H'). lia.
Qed.

End Voice.

(** C6, as stated, fails: [connect] never looks the key up.  On a cache
    that holds the dispatcher of a first [connect], a second [connect] to
    the same channel asks the platform for another connection, constructs
    another dispatcher and puts it in the place of the first. *)
Lemma connect_again_replaces_dispatcher :
  VoiceUtilsTs.getConnection VoiceInputs.joined "872345"
    = Some VoiceInputs.first_dispatcher
  /\ (VoiceUtilsTs.connect VoiceInputs.lobby (Some VoiceInputs.empty_options)
        VoiceInputs.joined).1
     = Returned VoiceInputs.second_dispatcher
  /\ VoiceInputs.second_dispatcher <> VoiceInputs.first_dispatcher
  /\ VoiceUtilsTs.getConnection
       (VoiceUtilsTs.connect VoiceInputs.lobby (Some VoiceInputs.empty_options)
          VoiceInputs.joined).2 "872345"
     = Some VoiceInputs.second_dispatcher
  /\ VoiceUtilsTs.calls
       (VoiceUtilsTs.connect VoiceInputs.lobby (Some VoiceInputs.empty_options)
          VoiceInputs.joined).2
     = [("872345", false); ("872345", false)].
Proof.
  repeat split; try discriminate; reflexivity.
Qed.

(** C6, amended: when the cache already holds a dispatcher for the key,
    a [connect] with an options object whose call the platform accepts
    requests a new connection, constructs a new dispatcher around it,
    returns that new dispatcher and replaces the cache entry of the key
    with it. *)
Theorem connect_replaces_entry (channel : VoiceUtilsTs.DMChannel)
    (o : VoiceUtilsTs.JoinOptions) (v : VoiceUtilsTs.VoiceUtils)
    (old : VoiceUtilsTs.StreamDispatcher) :
  VoiceUtilsTs.getConnection v (VoiceUtilsTs.channel_id channel) = Some old ->
  VoiceUtilsTs.sd_id old < VoiceUtilsTs.created v ->
  VoiceUtilsTs.call_rejects channel (VoiceUtilsTs.Boolean (VoiceUtilsTs.deaf o)) = None ->
  exists sub v',
    VoiceUtilsTs.connect channel (Some o) v = (Returned sub, v')
    /\ sub <> old
    /\ VoiceUtilsTs.sd_id sub = S (VoiceUtilsTs.created v)
    /\ VoiceUtilsTs.conn_id (VoiceUtilsTs.voiceConnection sub) = VoiceUtilsTs.created v
    /\ VoiceUtilsTs.getConnection v' (VoiceUtilsTs.channel_id channel) = Some sub
    /\ VoiceUtilsTs.calls v'
       = (VoiceUtilsTs.calls v
          ++ [(VoiceUtilsTs.channel_id channel,
               VoiceUtilsTs.Boolean (VoiceUtilsTs.deaf o))])%list
    /\ VoiceUtilsTs.created v' = S (S (VoiceUtilsTs.created v)).
Proof.
  intros Hold Hid Hcall. eexists _, _. split; [now apply connect_accepted|].
  repeat split; try reflexivity.
  - intros <-. simpl in Hid. lia.
  - apply lookup_insert_eq.
Qed.

Lemma connect_replaces_entry_witness :
  exists sub v',
    VoiceUtilsTs.connect VoiceInputs.lobby (Some VoiceInputs.empty_options)
      VoiceInputs.joined = (Returned sub, v')
    /\ sub <> VoiceInputs.first_dispatcher
    /\ VoiceUtilsTs.sd_id sub = S (VoiceUtilsTs.created VoiceInputs.joined)
    /\ VoiceUtilsTs.conn_id (VoiceUtilsTs.voiceConnection sub)
       = VoiceUtilsTs.created VoiceInputs.joined
    /\ VoiceUtilsTs.getConnection v' "872345" = Some sub
    /\ VoiceUtilsTs.calls v'
       = (VoiceUtilsTs.calls VoiceInputs.joined ++ [("872345", false)])%list
    /\ VoiceUtilsTs.created v' = S (S (VoiceUtilsTs.created VoiceInputs.joined)).
Proof.
  apply (connect_replaces_entry VoiceInputs.lobby VoiceInputs.empty_options
           VoiceInputs.joined VoiceInputs.first_dispatcher).
  - unfold VoiceInputs.joined. rewrite connect_accepted by reflexivity.
    apply lookup_insert_eq.
  - unfold VoiceInputs.joined. rewrite connect_accepted by reflexivity.
    simpl. lia.
  - reflexivity.
Defined.

(** C10: with the options argument omitted [join] and [connect] end in the
    TypeError of reading [deaf] of undefined and leave the state as it was,
    no call having been requested.  With an options object the call is
    always requested, and the outcome is the platform's: a connection (for
    [connect] a dispatcher) when it accepts the call, its own rejection
    otherwise. *)
Theorem options_omitted_throws (channel : VoiceUtilsTs.DMChannel)
    (v : VoiceUtilsTs.VoiceUtils) :
  VoiceUtilsTs.join channel None v
    = (Thrown (TypeError "Cannot read properties of undefined (reading 'deaf')"), v)
  /\ VoiceUtilsTs.connect channel None v
    = (Thrown (TypeError "Cannot read properties of undefined (reading 'deaf')"), v)
  /\ forall o : VoiceUtilsTs.JoinOptions,
       VoiceUtilsTs.calls (VoiceUtilsTs.join channel (Some o) v).2
         = (VoiceUtilsTs.calls v
            ++ [(VoiceUtilsTs.channel_id channel,
                 VoiceUtilsTs.Boolean (VoiceUtilsTs.deaf o))])%list
       /\ VoiceUtilsTs.calls (VoiceUtilsTs.connect channel (Some o) v).2
         = (VoiceUtilsTs.calls v
            ++ [(VoiceUtilsTs.channel_id channel,
                 VoiceUtilsTs.Boolean (VoiceUtilsTs.deaf o))])%list
       /\ (VoiceUtilsTs.call_rejects channel (VoiceUtilsTs.Boolean (VoiceUtilsTs.deaf o)) = None ->
           (exists conn, (VoiceUtilsTs.join channel (Some o) v).1 = Returned conn)
           /\ exists sub, (VoiceUtilsTs.connect channel (Some o) v).1 = Returned sub)
       /\ (forall e,
             VoiceUtilsTs.call_rejects channel (VoiceUtilsTs.Boolean (VoiceUtilsTs.deaf o)) = Some e ->
             (VoiceUtilsTs.join channel (Some o) v).1 = Thrown e
             /\ (VoiceUtilsTs.connect channel (Some o) v).1 = Thrown e).
Proof.
  split; [reflexivity|]. split; [reflexivity|]. intros o.
  rewrite join_with_options, channel_call_calls.
  destruct (VoiceUtilsTs.call_rejects channel
              (VoiceUtilsTs.Boolean (VoiceUtilsTs.deaf o))) as [e|] eqn:Hc.
  - rewrite (connect_rejected _ _ _ _ Hc). unfold VoiceUtilsTs.channel_call.
    rewrite Hc. split; [reflexivity|]. split; [reflexivity|].
    split; [discriminate|]. now intros e' [= <-].
  - rewrite (connect_accepted _ _ _ Hc). unfold VoiceUtilsTs.channel_call.
    rewrite Hc. split; [reflexivity|]. split; [reflexivity|].
    split; [|discriminate]. intros _. split; eexists; reflexivity.
Qed.

(** ** Player: the queue table and emit *)

Section Sessions.

Import PlayerTs PlayerInputs.

Lemma createQueue_existing p guild o existing :
  getQueue p guild = Some existing -> createQueue p guild o = (existing, p, o).
Proof. unfold getQueue, createQueue. now intros ->. Qed.

Lemma createQueue_registers p guild o :
  getQueue (createQueue p guild o).1.2 guild = Some (createQueue p guild o).1.1.
Proof.
  unfold getQueue, createQueue.
  destruct (queues p !! guild) as [existing|] eqn:E; simpl; [exact E|].
  apply lookup_insert_eq.
Qed.

(** Any number of further calls returns the queue of the first one and
    leaves the player as the first call left it. *)
Lemma createQueue_each_same p guild o os :
  createQueue_each (createQueue p guild o).1.2 guild os
  = (replicate (List.length os) (createQueue p guild o).1.1,
     (createQueue p guild o).1.2).
Proof.
  pose proof (createQueue_registers p guild o) as R.
  induction os as [|o' os IH]; [reflexivity|].
  cbn [createQueue_each]. rewrite (createQueue_existing _ _ _ _ R), IH.
  reflexivity.
Qed.

Lemma includes_In l x : includes l x = true <-> In x l.
Proof.
  unfold includes. rewrite existsb_exists. split.
  - intros (y & Hy & E). apply String.eqb_eq in E. now subst.
  - intros H. exists x. split; [exact H | apply String.eqb_refl].
Qed.

Lemma eventNames_listeners p eventName :
  In eventName (eventNames p) <-> listeners_of p eventName <> [].
Proof.
  unfold eventNames, listeners_of. rewrite <- list_elem_of_In, list_elem_of_fmap.
  split.
  - intros ([n ls] & -> & H). apply elem_of_map_to_list in H.
    apply map_lookup_filter_Some in H as [H Hne]. simpl in *. now rewrite H.
  - intros Hne. destruct (listeners p !! eventName) as [ls|] eqn:E; [|easy].
    exists (eventName, ls). split; [reflexivity|].
    apply elem_of_map_to_list, map_lookup_filter_Some. now split.
Qed.

Lemma includes_eventNames_false p eventName :
  listeners_of p eventName = [] -> includes (eventNames p) eventName = false.
Proof.
  intros H. apply not_true_iff_false. rewrite includes_In, eventNames_listeners.
  now intros [].
Qed.

Lemma includes_eventNames_true p eventName :
  listeners_of p eventName <> [] -> includes (eventNames p) eventName = true.
Proof. intros H. now apply includes_In, eventNames_listeners. Qed.

End Sessions.

(** C8: a second [createQueue] for the same key returns the queue of the
    first call and changes neither the player (its queue table and the
    number of queue objects constructed) nor the options object it was
    given; the table holds that queue under the key, and the first call
    constructs exactly one queue object when the key was free. *)
Theorem createQueue_idempotent (p : PlayerTs.Player) (guild : string)
    (o1 o2 : PlayerTs.PlayerOptions) :
  PlayerTs.createQueue (PlayerTs.createQueue p guild o1).1.2 guild o2
    = ((PlayerTs.createQueue p guild o1).1.1, (PlayerTs.createQueue p guild o1).1.2, o2)
  /\ PlayerTs.getQueue (PlayerTs.createQueue p guild o1).1.2 guild
    = Some (PlayerTs.createQueue p guild o1).1.1
  /\ (PlayerTs.getQueue p guild = None ->
      PlayerTs.constructed (PlayerTs.createQueue p guild o1).1.2
      = S (PlayerTs.constructed p)).
Proof.
  split; [|split].
  - apply createQueue_existing, createQueue_registers.
  - apply createQueue_registers.
  - unfold PlayerTs.getQueue, PlayerTs.createQueue. now intros ->.
Qed.


(** The two required events of a player as constructed, and an event with
    a listener. *)
Example emit_error_unhandled :
  PlayerTs.emit PlayerInputs.new_player "error" ["boom"]
  = (Returned false,
     [PlayerTs.ConsoleError ["boom"];
      PlayerTs.ProcessWarning
        ("[DiscordPlayerWarning] Unhandled " ++ PlayerTs.quoted "error"
         ++ " event! Events " ++ PlayerTs.quoted "error" ++ ", "
         ++ PlayerTs.quoted "connectionError" ++ " must have event listeners!")])
  /\ PlayerTs.emit
       (PlayerInputs.listening PlayerInputs.new_player "error" (PlayerInputs.returning 7))
       "error" ["boom"]
     = (Returned true, [PlayerTs.ListenerCalled (PlayerInputs.returning 7) ["boom"]])
  /\ PlayerTs.emit PlayerInputs.new_player "trackStart" []
     = (Returned false, []).
Proof. repeat split; vm_compute; reflexivity. Qed.

(** What a listener throws comes out of [emit], and the listeners after
    it are not called. *)
Example emit_listener_throws :
  PlayerTs.emit
    (PlayerInputs.listening
       (PlayerInputs.listening PlayerInputs.new_player "trackStart"
          (PlayerInputs.throwing 7 (TypeError "undefined is not a function")))
       "trackStart" (PlayerInputs.returning 8))
    "trackStart" []
  = (Thrown (TypeError "undefined is not a function"),
     [PlayerTs.ListenerCalled
        (PlayerInputs.throwing 7 (TypeError "undefined is not a function")) []]).
Proof. vm_compute. reflexivity. Qed.

(** ** Player: search *)

Section Search.

Import PlayerTs SearchInputs.

Lemma logged_all_nil w : logged_all [] w = w.
Proof. destruct w. unfold logged_all. simpl. now rewrite app_nil_r. Qed.

Lemma logged_all_logged_all evs evs' w :
  logged_all evs' (logged_all evs w) = logged_all (evs ++ evs') w.
Proof. unfold logged_all. simpl. now rewrite app_assoc. Qed.

Lemma logged_as_all ev w : logged ev w = logged_all [ev] w.
Proof. reflexivity. Qed.

Create Rewrite HintDb worlds.
#[local] Hint Rewrite logged_as_all logged_all_logged_all logged_all_nil : worlds.

(** The constructors return, and leave the log alone. *)
Lemma mapM_new_Track {A : Type} (f : A -> TrackTs.RawTrackData) (l : list A) : forall w,
  mapM (fun m => new_Track (f m)) l w
  = (Returned (imap (fun i m => TrackTs._patch (next_id w + i) (f m)) l),
     {| next_id := next_id w + List.length l; playlists := playlists w;
        log := log w |}).
Proof.
  induction l as [|x l IH]; intros w.
  - simpl. unfold ret. destruct w. simpl. now rewrite Nat.add_0_r.
  - cbn [mapM]. unfold bind at 1. unfold new_Track at 1.
    unfold bind at 1. rewrite IH. unfold ret. cbn [next_id playlists log imap List.length].
    rewrite Nat.add_0_r. do 2 f_equal.
    + f_equal. apply imap_ext. intros i y _. simpl. f_equal. lia.
    + lia.
Qed.

Lemma extractor_result_returns o d w :
  exists r w',
    extractor_result o d w = (Returned r, w')
    /\ log w' = log w
    /\ tracks r
       = tracks_from o (playlist r)
           (match playlist_data d with Some _ => S (next_id w) | None => next_id w end)
           (data d)
    /\ playlist r
       = match playlist_data d with Some _ => Some (next_id w) | None => None end.
Proof.
  unfold extractor_result, tracks_from.
  destruct (playlist_data d) as [i|]; unfold bind, new_Playlist, ret, set_tracks, modify;
    rewrite mapM_new_Track; simpl; eauto 10.
Qed.

(** One use of an extractor: the check, and the three ways [handle] and
    the guarded block after it can end. *)
Lemma bind_call_validate {B : Type} name e q (k : bool -> M World B) w :
  (ok <- call_validate name e q ;; k ok) w
  = k (validate e q) (logged_all [Validated name] w).
Proof. reflexivity. Qed.



Lemma try_extractor_nothing name e q o d w :
  handle e q = Returned d -> has_items d = None ->
  try_extractor name e q o w = (Returned None, logged_all [Handled name] w).
Proof.
  intros Hh Hd. unfold try_extractor, bind, call_handle. now rewrite Hh, Hd.
Qed.

Lemma try_extractor_rejects name e q o err w :
  handle e q = Thrown err ->
  try_extractor name e q o w = (Thrown err, logged_all [Handled name] w).
Proof. intros Hh. unfold try_extractor, bind, call_handle. now rewrite Hh. Qed.

(** A block that returns what it computes, followed by the test of
    whether it returned. *)
Lemma returned_through {A : Type} (c : M World A) (k : M World A) w :
  (r <- (x <- c ;; ret (Some x)) ;;
   match r with Some res => ret res | None => k end) w = c w.
Proof. unfold bind, ret. now destruct (c w) as [[a|e] w']. Qed.

(** The loop does nothing when fallback is blocked. *)
Lemma chain_blocked exts q o w :
  blockExtractor o = true -> chain exts q o w = (Returned None, w).
Proof. intros H. destruct exts as [|[name e] rest]; simpl; now rewrite ?H. Qed.

(** The loop passes over fruitless extractors, using each in turn. *)
Lemma chain_fruitless pre : forall rest q o w,
  blockExtractor o = false ->
  Forall (fun ne => fruitless q ne.2) pre ->
  chain (pre ++ rest) q o w = chain rest q o (logged_all (uses q pre) w).
Proof.
  induction pre as [|[name e] pre IH]; intros rest q o w Hb Hpre.
  - simpl. now rewrite logged_all_nil.
  - inversion Hpre as [|? ? He Hpre']; subst. simpl in He.
    cbn [app chain uses flat_map]. rewrite Hb, bind_call_validate.
    destruct He as [Hv | (d & Hh & Hd)].
    + rewrite Hv. cbn [negb]. rewrite IH by assumption.
      now autorewrite with worlds.
    + destruct (validate e q) eqn:Hv; cbn [negb].
      * unfold bind at 1. rewrite (try_extractor_nothing _ _ _ _ _ _ Hh Hd).
        rewrite IH by assumption. now autorewrite with worlds.
      * rewrite IH by assumption. now autorewrite with worlds.
Qed.


(** A rejection of [handle] is not caught: it is the outcome of the
    loop. *)
Lemma chain_handle_rejects name e rest q o w err :
  blockExtractor o = false ->
  validate e q = true -> handle e q = Thrown err ->
  chain ((name, e) :: rest) q o w
  = (Thrown err, logged_all [Validated name; Handled name] w).
Proof.
  intros Hb Hv Hh. cbn [chain]. rewrite Hb, bind_call_validate, Hv. cbn [negb].
  unfold bind. rewrite (try_extractor_rejects _ _ _ _ _ _ Hh).
  now autorewrite with worlds.
Qed.

Lemma named_phase_none p q o w :
  names_no_extractor p o -> named_phase p q o w = (Returned None, w).
Proof.
  unfold names_no_extractor, named_phase.
  destruct (engine_of o) as [qt|name]; [reflexivity|]. now intros ->.
Qed.

(** The built-in branches return, and use no registered extractor. *)
Lemma soundcloud_tracks_returns s o urls : forall w,
  exists ts w', soundcloud_tracks s o urls w = (Returned ts, w') /\ log w' = log w.
Proof.
  induction urls as [|u urls IH]; intros w; simpl; [unfold ret; eauto|].
  destruct (caught (soundcloud_getSongInfo s u)) as [info|]; [|apply IH].
  unfold bind, new_Track.
  destruct (IH {| next_id := S (next_id w); playlists := playlists w; log := log w |})
    as (ts & w' & -> & Hlog).
  unfold ret. eauto.
Qed.

Lemma builtin_returns s qt q o w :
  exists r w', builtin s qt q o w = (Returned r, w') /\ log w' = log w.
Proof.
  assert (forall urls w0, exists r w',
            (res <- soundcloud_tracks s o urls ;;
             ret {| playlist := None; tracks := res |}) w0 = (Returned r, w')
            /\ log w' = log w0) as Hsc.
  { intros urls w0. unfold bind.
    destruct (soundcloud_tracks_returns s o urls w0) as (ts & w' & -> & Hlog).
    unfold ret. eauto. }
  destruct qt as [[]|name]; cbn [builtin];
    try (unfold ret; now eauto);
    try (destruct (caught _) as [payload|]; [|unfold ret; now eauto];
         unfold bind, ret, new_Playlist, set_tracks, modify;
         rewrite ?mapM_new_Track; unfold new_Track; simpl;
         rewrite ?mapM_new_Track; simpl; now eauto).
  all: destruct (QueryResolver_resolve s q);
    try (destruct (soundcloud_search s q) as [reason|[[|u urls]|]]);
    try (unfold ret; now eauto); apply Hsc.
Qed.

Lemma builtin_rejected s qt q o w :
  lookup_rejected s qt q = true -> builtin s qt q o w = (Returned empty_result, w).
Proof.
  destruct qt as [[]|name]; cbn [lookup_rejected builtin]; try discriminate;
    try (destruct (QueryResolver_resolve s q));
    match goal with
    | |- rejected ?x = true -> _ => destruct x as [reason|v] eqn:E
    end; try discriminate; intros _; try reflexivity.
  all: unfold bind; cbn [soundcloud_tracks]; rewrite E; reflexivity.
Qed.

Lemma search_after_registered p s q o w w1 :
  registered_phase p q o w = (Returned None, w1) ->
  search p s (QueryString q) (Some o) w = builtin s (query_type s q o) q o w1.
Proof. intros H. unfold search, bind. now rewrite H. Qed.

End Search.



(** The scenario of the specification: R1 matches and resolves to nothing,
    R2 matches and resolves to two items; the search returns two tracks,
    those of R2. *)
Example search_R1_R2 :
  (PlayerTs.search
     (SearchInputs.player_with [("R1", SearchInputs.R1); ("R2", SearchInputs.R2)])
     SearchInputs.offline (PlayerTs.QueryString "a song")
     (Some SearchInputs.automatic) SearchInputs.blank).1
  = Returned
      {| PlayerTs.playlist := None;
         PlayerTs.tracks :=
           [TrackTs._patch 0
              (PlayerTs.timed_data SearchInputs.automatic None (Some "arbitrary")
                 (SearchInputs.song "one"));
            TrackTs._patch 1
              (PlayerTs.timed_data SearchInputs.automatic None (Some "arbitrary")
                 (SearchInputs.song "two"))] |}.
Proof. vm_compute. reflexivity. Qed.

(** C4, as stated, fails: R1 is named, matches and resolves to nothing;
    the search then runs the loop, which uses R1 a second time and then
    R2, and returns the tracks of R2. *)
Lemma search_named_falls_through :
  PlayerTs.log
    (PlayerTs.search
       (SearchInputs.player_with [("R1", SearchInputs.R1); ("R2", SearchInputs.R2)])
       SearchInputs.offline (PlayerTs.QueryString "a song")
       (Some (SearchInputs.naming "R1")) SearchInputs.blank).2
  = [PlayerTs.Validated "R1"; PlayerTs.Handled "R1";
     PlayerTs.Validated "R1"; PlayerTs.Handled "R1";
     PlayerTs.Validated "R2"; PlayerTs.Handled "R2"]
  /\ (PlayerTs.search
        (SearchInputs.player_with [("R1", SearchInputs.R1); ("R2", SearchInputs.R2)])
        SearchInputs.offline (PlayerTs.QueryString "a song")
        (Some (SearchInputs.naming "R1")) SearchInputs.blank).1
     = (PlayerTs.search
          (SearchInputs.player_with [("R1", SearchInputs.R1); ("R2", SearchInputs.R2)])
          SearchInputs.offline (PlayerTs.QueryString "a song")
          (Some SearchInputs.automatic) SearchInputs.blank).1
  /\ (PlayerTs.search
        (SearchInputs.player_with [("R1", SearchInputs.R1); ("R2", SearchInputs.R2)])
        SearchInputs.offline (PlayerTs.QueryString "a song")
        (Some (SearchInputs.naming "R1")) SearchInputs.blank).1
     <> Returned PlayerTs.empty_result.
Proof. repeat split; vm_compute; (reflexivity || discriminate). Qed.

(** C4, amended: when the options name a registered extractor, a failed
    check ends the search with the empty result, no error, and no other
    extractor used; a check that passes with at least one item resolved
    ends it with the tracks of that extractor and no other extractor
    used.  When the named extractor resolves to nothing, the search goes
    on with the loop over the collection and then the built-in
    branches. *)
Theorem search_named_extractor (p : PlayerTs.Player) (s : PlayerTs.Sources)
    (q : string) (o : PlayerTs.SearchOptions) (w : PlayerTs.World)
    (name : string) (e : PlayerTs.ExtractorModel) :
  PlayerTs.engine_of o = PlayerTs.Named name ->
  PlayerTs.get_extractor name (PlayerTs.extractors p) = Some e ->
  (PlayerTs.validate e q = false ->
   PlayerTs.search p s (PlayerTs.QueryString q) (Some o) w
   = (Returned PlayerTs.empty_result,
      SearchInputs.logged_all [PlayerTs.Validated name] w))
  /\ (forall d,
        PlayerTs.validate e q = true ->
        PlayerTs.handle e q = Returned (Some d) ->
        PlayerTs.data d <> [] ->
        exists r w',
          PlayerTs.search p s (PlayerTs.QueryString q) (Some o) w = (Returned r, w')
          /\ PlayerTs.tracks r
             = SearchInputs.tracks_from o (PlayerTs.playlist r)
                 (match PlayerTs.playlist_data d with
                  | Some _ => S (PlayerTs.next_id w)
                  | None => PlayerTs.next_id w
                  end)
                 (PlayerTs.data d)
          /\ PlayerTs.log w'
             = (PlayerTs.log w ++ [PlayerTs.Validated name; PlayerTs.Handled name])%list)
  /\ (forall d,
        PlayerTs.validate e q = true ->
        PlayerTs.handle e q = Returned d ->
        PlayerTs.has_items d = None ->
        PlayerTs.search p s (PlayerTs.QueryString q) (Some o) w
        = (r <- PlayerTs.chain (PlayerTs.extractors p) q o ;;
           match r with
           | Some res => ret res
           | None => PlayerTs.builtin s (PlayerTs.query_type s q o) q o
           end)
            (SearchInputs.logged_all [PlayerTs.Validated name; PlayerTs.Handled name] w)).
Proof.
  intros Hengine Hget.
  unfold PlayerTs.search, PlayerTs.registered_phase, PlayerTs.named_phase.
  rewrite Hengine, Hget. split; [|split].
  - intros Hv. unfold bind, PlayerTs.call_validate. rewrite Hv. reflexivity.
  - intros d Hv Hh Hd.
    unfold bind at 1 2 3. unfold PlayerTs.call_validate at 1. rewrite Hv. cbn [negb].
    unfold PlayerTs.try_extractor, bind at 1, PlayerTs.call_handle. rewrite Hh.
    assert (PlayerTs.has_items (Some d) = Some d) as ->.
    { simpl. destruct (PlayerTs.data d); congruence. }
    rewrite !logged_as_all, logged_all_logged_all. cbn [app].
    destruct (extractor_result_returns o d
                (SearchInputs.logged_all
                   [PlayerTs.Validated name; PlayerTs.Handled name] w))
      as (r & w' & E & Hlog & Htracks & _).
    unfold bind. rewrite E. exists r, w'. unfold ret.
    split; [reflexivity|]. split; [exact Htracks|]. now rewrite Hlog.
  - intros d Hv Hh Hd.
    unfold bind at 1 2 3. unfold PlayerTs.call_validate at 1. rewrite Hv. cbn [negb].
    unfold PlayerTs.try_extractor, bind at 1, PlayerTs.call_handle. rewrite Hh, Hd.
    rewrite !logged_as_all, logged_all_logged_all. reflexivity.
Qed.

Lemma search_named_extractor_witness :
  (PlayerTs.validate SearchInputs.R2 "a song" = false ->
   PlayerTs.search
     (SearchInputs.player_with [("R1", SearchInputs.R1); ("R2", SearchInputs.R2)])
     SearchInputs.offline (PlayerTs.QueryString "a song")
     (Some (SearchInputs.naming "R2")) SearchInputs.blank
   = (Returned PlayerTs.empty_result,
      SearchInputs.logged_all [PlayerTs.Validated "R2"] SearchInputs.blank))
  /\ (forall d,
        PlayerTs.validate SearchInputs.R2 "a song" = true ->
        PlayerTs.handle SearchInputs.R2 "a song" = Returned (Some d) ->
        PlayerTs.data d <> [] ->
        exists r w',
          PlayerTs.search
            (SearchInputs.player_with [("R1", SearchInputs.R1); ("R2", SearchInputs.R2)])
            SearchInputs.offline (PlayerTs.QueryString "a song")
            (Some (SearchInputs.naming "R2")) SearchInputs.blank = (Returned r, w')
          /\ PlayerTs.tracks r
             = SearchInputs.tracks_from (SearchInputs.naming "R2") (PlayerTs.playlist r)
                 (match PlayerTs.playlist_data d with
                  | Some _ => S (PlayerTs.next_id SearchInputs.blank)
                  | None => PlayerTs.next_id SearchInputs.blank
                  end)
                 (PlayerTs.data d)
          /\ PlayerTs.log w'
             = (PlayerTs.log SearchInputs.blank
                ++ [PlayerTs.Validated "R2"; PlayerTs.Handled "R2"])%list)
  /\ (forall d,
        PlayerTs.validate SearchInputs.R2 "a song" = true ->
        PlayerTs.handle SearchInputs.R2 "a song" = Returned d ->
        PlayerTs.has_items d = None ->
        PlayerTs.search
          (SearchInputs.player_with [("R1", SearchInputs.R1); ("R2", SearchInputs.R2)])
          SearchInputs.offline (PlayerTs.QueryString "a song")
          (Some (SearchInputs.naming "R2")) SearchInputs.blank
        = (r <- PlayerTs.chain
                  (PlayerTs.extractors
                     (SearchInputs.player_with
                        [("R1", SearchInputs.R1); ("R2", SearchInputs.R2)]))
                  "a song" (SearchInputs.naming "R2") ;;
           match r with
           | Some res => ret res
           | None =>
               PlayerTs.builtin SearchInputs.offline
                 (PlayerTs.query_type SearchInputs.offline "a song"
                    (SearchInputs.naming "R2"))
                 "a song" (SearchInputs.naming "R2")
           end)
            (SearchInputs.logged_all
               [PlayerTs.Validated "R2"; PlayerTs.Handled "R2"] SearchInputs.blank)).
Proof.
  apply (search_named_extractor
           (SearchInputs.player_with [("R1", SearchInputs.R1); ("R2", SearchInputs.R2)])
           SearchInputs.offline "a song" (SearchInputs.naming "R2") SearchInputs.blank
           "R2" SearchInputs.R2); reflexivity.
Defined.

(** C5, as stated, fails: with fallback blocked the loop ends before its
    first check.  R2 matches the query and would resolve to two items, and
    is never used; the search goes to the built-in branch. *)
Lemma search_blocked_skips_matching_extractor :
  PlayerTs.validate SearchInputs.R2 "a song" = true
  /\ PlayerTs.search (SearchInputs.player_with [("R2", SearchInputs.R2)])
       SearchInputs.offline (PlayerTs.QueryString "a song")
       (Some SearchInputs.automatic_blocked) SearchInputs.blank
     = (Returned PlayerTs.empty_result, SearchInputs.blank)
  /\ ~ In (PlayerTs.Handled "R2")
         (PlayerTs.log
            (PlayerTs.search (SearchInputs.player_with [("R2", SearchInputs.R2)])
               SearchInputs.offline (PlayerTs.QueryString "a song")
               (Some SearchInputs.automatic_blocked) SearchInputs.blank).2).
Proof. repeat split; try reflexivity. vm_compute. tauto. Qed.

(** C5, amended: with fallback blocked the loop over the collection uses
    no extractor at all.  A search that names no registered extractor is
    the built-in branch alone; one that names a registered extractor uses
    that extractor, once, and no other. *)
Theorem search_blocked (p : PlayerTs.Player) (s : PlayerTs.Sources) (q : string)
    (o : PlayerTs.SearchOptions) (w : PlayerTs.World) :
  PlayerTs.blockExtractor o = true ->
  PlayerTs.chain (PlayerTs.extractors p) q o w = (Returned None, w)
  /\ (SearchInputs.names_no_extractor p o ->
      PlayerTs.search p s (PlayerTs.QueryString q) (Some o) w
      = PlayerTs.builtin s (PlayerTs.query_type s q o) q o w
      /\ PlayerTs.log (PlayerTs.search p s (PlayerTs.QueryString q) (Some o) w).2
         = PlayerTs.log w)
  /\ (forall name e,
        PlayerTs.engine_of o = PlayerTs.Named name ->
        PlayerTs.get_extractor name (PlayerTs.extractors p) = Some e ->
        PlayerTs.log (PlayerTs.search p s (PlayerTs.QueryString q) (Some o) w).2
        = (PlayerTs.log w
           ++ (if PlayerTs.validate e q
               then [PlayerTs.Validated name; PlayerTs.Handled name]
               else [PlayerTs.Validated name]))%list).
Proof.
  intros Hb. split; [now apply chain_blocked|]. split.
  - intros Hnone.
    assert (PlayerTs.search p s (PlayerTs.QueryString q) (Some o) w
            = PlayerTs.builtin s (PlayerTs.query_type s q o) q o w) as E.
    { apply search_after_registered. unfold PlayerTs.registered_phase, bind.
      rewrite (named_phase_none _ _ _ _ Hnone). now apply chain_blocked. }
    split; [exact E|]. rewrite E.
    now destruct (builtin_returns s (PlayerTs.query_type s q o) q o w)
      as (r & w' & -> & Hlog).
  - intros name e Hengine Hget.
    unfold PlayerTs.search, PlayerTs.registered_phase, PlayerTs.named_phase.
    rewrite Hengine, Hget.
    unfold bind at 1 2 3. unfold PlayerTs.call_validate at 1.
    destruct (PlayerTs.validate e q) eqn:Hv; cbn [negb]; [|reflexivity].
    unfold PlayerTs.try_extractor, bind at 1, PlayerTs.call_handle.
    rewrite !logged_as_all, logged_all_logged_all. cbn [app].
    destruct (PlayerTs.handle e q) as [d|err]; [|reflexivity].
    destruct (PlayerTs.has_items d) as [d'|].
    + destruct (extractor_result_returns o d'
                  (SearchInputs.logged_all
                     [PlayerTs.Validated name; PlayerTs.Handled name] w))
        as (r & w' & E & Hlog & _).
      unfold bind. rewrite E. unfold ret. simpl. now rewrite Hlog.
    + unfold ret at 1. rewrite chain_blocked by exact Hb.
      destruct (builtin_returns s (PlayerTs.query_type s q o) q o
                  (SearchInputs.logged_all
                     [PlayerTs.Validated name; PlayerTs.Handled name] w))
        as (r & w' & -> & Hlog).
      simpl. now rewrite Hlog.
Qed.

Lemma search_blocked_witness :
  PlayerTs.chain
    (PlayerTs.extractors (SearchInputs.player_with [("R2", SearchInputs.R2)]))
    "a song" SearchInputs.automatic_blocked SearchInputs.blank
  = (Returned None, SearchInputs.blank)
  /\ (SearchInputs.names_no_extractor
        (SearchInputs.player_with [("R2", SearchInputs.R2)])
        SearchInputs.automatic_blocked ->
      PlayerTs.search (SearchInputs.player_with [("R2", SearchInputs.R2)])
        SearchInputs.offline (PlayerTs.QueryString "a song")
        (Some SearchInputs.automatic_blocked) SearchInputs.blank
      = PlayerTs.builtin SearchInputs.offline
          (PlayerTs.query_type SearchInputs.offline "a song"
             SearchInputs.automatic_blocked)
          "a song" SearchInputs.automatic_blocked SearchInputs.blank
      /\ PlayerTs.log
           (PlayerTs.search (SearchInputs.player_with [("R2", SearchInputs.R2)])
              SearchInputs.offline (PlayerTs.QueryString "a song")
              (Some SearchInputs.automatic_blocked) SearchInputs.blank).2
         = PlayerTs.log SearchInputs.blank)
  /\ (forall name e,
        PlayerTs.engine_of SearchInputs.automatic_blocked = PlayerTs.Named name ->
        PlayerTs.get_extractor name
          (PlayerTs.extractors (SearchInputs.player_with [("R2", SearchInputs.R2)]))
        = Some e ->
        PlayerTs.log
          (PlayerTs.search (SearchInputs.player_with [("R2", SearchInputs.R2)])
             SearchInputs.offline (PlayerTs.QueryString "a song")
             (Some SearchInputs.automatic_blocked) SearchInputs.blank).2
        = (PlayerTs.log SearchInputs.blank
           ++ (if PlayerTs.validate e "a song"
               then [PlayerTs.Validated name; PlayerTs.Handled name]
               else [PlayerTs.Validated name]))%list).
Proof.
  apply (search_blocked (SearchInputs.player_with [("R2", SearchInputs.R2)])
           SearchInputs.offline "a song" SearchInputs.automatic_blocked
           SearchInputs.blank).
  reflexivity.
Defined.

(** C7: once the registered extractors have produced nothing, the search
    returns whatever the sources do; and when the lookup of the selected
    built-in branch is rejected it returns the empty result. *)
Theorem search_absorbs_rejection (p : PlayerTs.Player) (s : PlayerTs.Sources)
    (q : string) (o : PlayerTs.SearchOptions) (w w1 : PlayerTs.World) :
  PlayerTs.registered_phase p q o w = (Returned None, w1) ->
  (SearchInputs.lookup_rejected s (PlayerTs.query_type s q o) q = true ->
   PlayerTs.search p s (PlayerTs.QueryString q) (Some o) w
   = (Returned PlayerTs.empty_result, w1))
  /\ exists r w',
       PlayerTs.search p s (PlayerTs.QueryString q) (Some o) w = (Returned r, w').
Proof.
  intros Hreg. rewrite (search_after_registered _ s _ _ _ _ Hreg). split.
  - apply builtin_rejected.
  - destruct (builtin_returns s (PlayerTs.query_type s q o) q o w1)
      as (r & w' & E & _).
    eauto.
Qed.

Lemma search_absorbs_rejection_witness :
  (SearchInputs.lookup_rejected SearchInputs.offline
     (PlayerTs.query_type SearchInputs.offline "https://youtu.be/x"
        SearchInputs.automatic)
     "https://youtu.be/x" = true ->
   PlayerTs.search (SearchInputs.player_with [("R0", SearchInputs.R0)])
     SearchInputs.offline (PlayerTs.QueryString "https://youtu.be/x")
     (Some SearchInputs.automatic) SearchInputs.blank
   = (Returned PlayerTs.empty_result,
      SearchInputs.logged_all [PlayerTs.Validated "R0"] SearchInputs.blank))
  /\ exists r w',
       PlayerTs.search (SearchInputs.player_with [("R0", SearchInputs.R0)])
         SearchInputs.offline (PlayerTs.QueryString "https://youtu.be/x")
         (Some SearchInputs.automatic) SearchInputs.blank = (Returned r, w').
Proof.
  apply (search_absorbs_rejection (SearchInputs.player_with [("R0", SearchInputs.R0)])
           SearchInputs.offline "https://youtu.be/x" SearchInputs.automatic
           SearchInputs.blank
           (SearchInputs.logged_all [PlayerTs.Validated "R0"] SearchInputs.blank)).
  reflexivity.
Defined.

(** A rejection after the lookup is absorbed as well, and what the lookup
    resolved to is returned: the playlist link whose further pages fail to
    load gives the video of its first page. *)
Example search_fetch_rejected :
  (PlayerTs.search (SearchInputs.player_with []) SearchInputs.fetch_fails
     (PlayerTs.QueryString "https://youtube.com/playlist")
     (Some SearchInputs.automatic) SearchInputs.blank).1
  = Returned
      {| PlayerTs.playlist := Some 0;
         PlayerTs.tracks :=
           [TrackTs._patch 1
              (PlayerTs.with_context (PlayerTs.item (SearchInputs.song "one")) None
                 (Some "42") (Some 0) (Some "youtube"))] |}.
Proof. vm_compute. reflexivity. Qed.

(** Every built-in branch, taken alone: a rejected lookup gives the empty
    result and changes nothing, and no branch throws. *)
Lemma builtin_absorbs_rejection (s : PlayerTs.Sources) (qt : PlayerTs.SearchEngine)
    (q : string) (o : PlayerTs.SearchOptions) (w : PlayerTs.World) :
  (SearchInputs.lookup_rejected s qt q = true ->
   PlayerTs.builtin s qt q o w = (Returned PlayerTs.empty_result, w))
  /\ exists r w', PlayerTs.builtin s qt q o w = (Returned r, w').
Proof.
  split; [apply builtin_rejected|].
  destruct (builtin_returns s qt q o w) as (r & w' & E & _). eauto.
Qed.

(** * Further properties *)

(** ** durationMS, further *)

Section DurationMore.

Import TrackTs EscapeWords DurationWords.

Local Open Scope Z_scope.

Local Arguments Z.mul : simpl never.
Local Arguments Z.add : simpl never.
Local Arguments Z.pow : simpl never.

Lemma sep_colon_free prev c rest :
  Ascii.eqb c ":" = false -> sep_string ":" prev (String c rest) = None.
Proof.
  intros Hc. unfold sep_string. cbn [String.prefix].
  destruct (ascii_dec ":" c) as [<-|]; [discriminate | reflexivity].
Qed.

Lemma sep_at_colon prev rest : sep_string ":" prev (String ":" rest) = Some 1%nat.
Proof. now destruct rest. Qed.

Lemma split_from_colon_free t : forall prev,
  colon_free t = true -> split_from (sep_string ":") prev 0 t = (t, []).
Proof.
  induction t as [|c rest IH]; intros prev Hd; cbn [split_from]; [reflexivity|].
  cbn [colon_free] in Hd. apply andb_true_iff in Hd as [Hc%negb_true_iff Hrest].
  rewrite sep_colon_free by exact Hc. now rewrite IH.
Qed.

Lemma split_from_at_colon a : forall prev rest,
  colon_free a = true ->
  split_from (sep_string ":") prev 0 (a ++ String ":" rest)
  = (a, let '(p, ps) := split_from (sep_string ":") (Some ":"%char) 0 rest in p :: ps).
Proof.
  induction a as [|c a IH]; intros prev rest Hd.
  - rewrite append_empty_l. cbn [split_from]. rewrite sep_at_colon.
    now destruct (split_from _ _ _ rest).
  - cbn [colon_free] in Hd. apply andb_true_iff in Hd as [Hc%negb_true_iff Ha].
    rewrite append_cons. cbn [split_from]. rewrite sep_colon_free by exact Hc.
    now rewrite IH.
Qed.

(** Texts without a colon, joined with colons, are split into themselves. *)
Lemma split_from_joined ps : forall p prev,
  colon_free p = true -> Forall (fun x => colon_free x = true) ps ->
  split_from (sep_string ":") prev 0 (p ++ rejoined ":" ps) = (p, ps).
Proof.
  induction ps as [|x ps IH]; intros p prev Hp Hps.
  - cbn [rejoined]. rewrite append_empty_r. now apply split_from_colon_free.
  - inversion Hps as [|? ? Hx Hps']; subst. cbn [rejoined].
    change (":" ++ x ++ rejoined ":" ps) with (String ":" (x ++ rejoined ":" ps)).
    rewrite split_from_at_colon by exact Hp. now rewrite IH.
Qed.

Lemma split_joined p ps :
  colon_free p = true -> Forall (fun x => colon_free x = true) ps ->
  split (sep_string ":") (join ":" (p :: ps)) = p :: ps.
Proof.
  intros Hp Hps. rewrite join_rejoined. unfold split.
  now rewrite split_from_joined.
Qed.

(** The units of the first eight pieces are exact. *)
Lemma times_small t :
  (t < 8)%nat -> times (Exact 60) t = Exact (1000 * 60 ^ Z.of_nat t).
Proof.
  intros H. do 8 (destruct t as [|t]; [reflexivity|]). lia.
Qed.

Lemma foldl_add_NaN (l : list number) : foldl add NaN l = NaN.
Proof. induction l as [|x l IH]; [reflexivity | exact IH]. Qed.

(** NaN is absorbing: one NaN among the summands makes the sum NaN. *)
Lemma foldl_add_has_NaN (l : list number) : forall a,
  In NaN l -> foldl add a l = NaN.
Proof.
  induction l as [|x l IH]; intros a; cbn [foldl In]; [tauto|].
  intros [->|H]; [|now apply IH].
  replace (add a NaN) with NaN by now destruct a.
  apply foldl_add_NaN.
Qed.

Lemma foldr_units_nonneg (vs : list Z) :
  Forall (fun v => 0 <= v) vs -> 0 <= foldr (fun v acc => v + 60 * acc) 0 vs.
Proof.
  induction 1 as [|v vs Hv _ IH]; cbn [foldr]; lia.
Qed.

(** The sum of the units read from the least one up, from position [k],
    while every value stays within the integers held exactly. *)
Lemma foldl_add_units (cs : list string) : forall (vs : list Z) (k : nat) (a : Z),
  Forall2 (fun c v => parseInt c = Exact v) cs vs ->
  Forall (fun v => 0 <= v) vs ->
  (k + List.length cs <= 8)%nat ->
  0 <= a ->
  a + 1000 * 60 ^ Z.of_nat k * foldr (fun v acc => v + 60 * acc) 0 vs <= 2 ^ 53 ->
  foldl add (Exact a)
    (imap (fun i m => mul (parseInt m) (times (Exact 60) (k + i))) cs)
  = Exact (a + 1000 * 60 ^ Z.of_nat k * foldr (fun v acc => v + 60 * acc) 0 vs).
Proof.
  induction cs as [|c cs IH]; intros vs k a H Hpos Hlen Ha Hb;
    inversion H as [|? v ? vs' Hc Hcs]; subst.
  - cbn [imap foldl foldr]. f_equal. lia.
  - inversion Hpos as [|? ? Hv Hpos']; subst.
    pose proof (foldr_units_nonneg vs' Hpos') as HR.
    cbn [List.length] in Hlen. cbn [foldr] in Hb |- *.
    set (R := foldr (fun v acc => v + 60 * acc) 0 vs') in *.
    assert (0 < 60 ^ Z.of_nat k) as HP by (apply Z.pow_pos_nonneg; lia).
    set (P := 60 ^ Z.of_nat k) in *.
    assert (0 <= P * R) as HPR by (apply Z.mul_nonneg_nonneg; lia).
    assert (0 <= v * P) as HvP by (apply Z.mul_nonneg_nonneg; lia).
    assert (1000 * P * (v + 60 * R) = 1000 * (v * P) + 60000 * (P * R)) as E by ring.
    cbn [imap foldl]. rewrite Hc, Nat.add_0_r.
    rewrite times_small by lia. fold P. cbn [mul add].
    rewrite of_Z_safe by lia. cbn [add]. rewrite of_Z_safe by lia.
    rewrite (imap_ext _ (fun i m => mul (parseInt m) (times (Exact 60) (S k + i))))
      by (intros i x _; cbn [compose]; do 2 f_equal; lia).
    assert (60 ^ Z.of_nat (S k) = 60 * P) as EP
      by (unfold P; rewrite Nat2Z.inj_succ, Z.pow_succ_r by lia; reflexivity).
    rewrite (IH vs' (S k) (a + v * (1000 * P)) Hcs Hpos') by (rewrite ?EP; fold R; lia).
    f_equal. rewrite EP. fold R. lia.
Qed.

Lemma sexagesimal_foldr (vs : list Z) :
  sexagesimal vs = foldr (fun v acc => v + 60 * acc) 0 (rev vs).
Proof.
  unfold sexagesimal. rewrite <- (rev_involutive vs) at 1.
  generalize (rev vs) as l. intros l.
  induction l as [|v l IH]; [reflexivity|].
  cbn [rev foldr]. rewrite foldl_app. cbn [foldl]. rewrite IH. lia.
Qed.

Lemma Forall2_rev {A B : Type} (R : A -> B -> Prop) l k :
  Forall2 R l k -> Forall2 R (rev l) (rev k).
Proof.
  induction 1 as [|x y l k Hxy _ IH]; [constructor|].
  cbn [rev]. apply Forall2_app; [exact IH | now repeat constructor].
Qed.

End DurationMore.

(** X4: a piece of the duration text between colons that has no number at
    its start for [parseInt] makes [durationMS] NaN, whatever the other
    pieces are.  A track built without a duration has the empty text, so
    its [durationMS] is NaN. *)
Theorem durationMS_NaN_piece (text : string) :
  ((exists c, In c (Js.split (Js.sep_string ":") text) /\ Js.parseInt c = Js.NaN) ->
   TrackTs.durationMS_of text = Js.NaN)
  /\ (forall fresh data,
        TrackTs.raw_duration data = None ->
        TrackTs.durationMS (TrackTs._patch fresh data) = Js.NaN).
Proof.
  split.
  - intros (c & Hc & E). unfold TrackTs.durationMS_of.
    apply foldl_add_has_NaN.
    apply in_rev, list_elem_of_In, list_elem_of_lookup in Hc as [i Hi].
    apply list_elem_of_In, elem_of_lookup_imap.
    exists i, c. split; [now rewrite E | exact Hi].
  - intros fresh data E. unfold TrackTs.durationMS, TrackTs._patch.
    cbn [TrackTs.duration]. now rewrite E.
Qed.

(** X5: on at most eight texts without a colon joined by colons, each
    starting with a number for [parseInt] that is not negative, [durationMS]
    is a thousand times those numbers read as digits of base 60, as long
    as that value is within the integers a number holds exactly: the unit
    before the hours is worth 60 hours. *)
Theorem durationMS_base_60 (c : string) (cs : list string) (vs : list Z) :
  Forall (fun x => DurationWords.colon_free x = true) (c :: cs) ->
  Forall2 (fun x v => Js.parseInt x = Js.Exact v) (c :: cs) vs ->
  Forall (fun v => 0 <= v)%Z vs ->
  List.length (c :: cs) <= 8 ->
  (1000 * DurationWords.sexagesimal vs <= 2 ^ 53)%Z ->
  TrackTs.durationMS_of (Js.join ":" (c :: cs))
  = Js.Exact (1000 * DurationWords.sexagesimal vs)%Z.
Proof.
  intros Hfree Hvs Hpos Hlen Hb. inversion Hfree as [|? ? Hc Hcs]; subst.
  unfold TrackTs.durationMS_of. rewrite split_joined by assumption.
  apply Forall2_rev in Hvs. rewrite sexagesimal_foldr in Hb |- *.
  etransitivity;
    [apply (foldl_add_units _ (rev vs) 0%nat 0%Z Hvs)|].
  - now apply List.Forall_rev.
  - rewrite length_rev. cbn [Nat.add]. exact Hlen.
  - reflexivity.
  - change (60 ^ Z.of_nat 0)%Z with 1%Z. lia.
  - reflexivity.
Qed.

Lemma durationMS_base_60_witness :
  TrackTs.durationMS_of (Js.join ":" ["2"; "1"; "02"; "03 s"])
  = Js.Exact (1000 * DurationWords.sexagesimal [2; 1; 2; 3])%Z.
Proof.
  apply (durationMS_base_60 "2" ["1"; "02"; "03 s"] [2; 1; 2; 3]%Z).
  - repeat constructor.
  - repeat constructor.
  - repeat constructor; lia.
  - cbn [List.length]. lia.
  - vm_compute. discriminate.
Defined.

Section VoiceMore.

Import Eff VoiceUtilsTs VoiceDisconnect.

(** What [connect] does to the cache, by outcome. *)
Lemma connect_cache channel options v :
  cache (connect channel options v).2
  = match (connect channel options v).1 with
    | Returned d => <[channel_id channel := d]> (cache v)
    | Thrown _ => cache v
    end.
Proof.
  destruct options as [o|]; [|reflexivity].
  destruct (call_rejects channel (Boolean (deaf o))) as [e|] eqn:Hc.
  - now rewrite (connect_rejected _ _ _ _ Hc).
  - now rewrite (connect_accepted _ _ _ Hc).
Qed.

End VoiceMore.

(** X6: [connect] touches the cache entry of its own channel only, and only
    when it succeeds: the dispatcher it returns is then what [getConnection]
    gives for the channel; a rejected [connect] leaves the whole cache as it
    was; the entries of other keys are never changed. *)
Theorem connect_touches_one_entry (channel : VoiceUtilsTs.DMChannel)
    (options : option VoiceUtilsTs.JoinOptions) (v : VoiceUtilsTs.VoiceUtils) :
  match (VoiceUtilsTs.connect channel options v).1 with
  | Eff.Returned d =>
      VoiceUtilsTs.getConnection (VoiceUtilsTs.connect channel options v).2
        (VoiceUtilsTs.channel_id channel) = Some d
  | Eff.Thrown _ =>
      VoiceUtilsTs.cache (VoiceUtilsTs.connect channel options v).2
      = VoiceUtilsTs.cache v
  end
  /\ forall guild,
       guild <> VoiceUtilsTs.channel_id channel ->
       VoiceUtilsTs.getConnection (VoiceUtilsTs.connect channel options v).2 guild
       = VoiceUtilsTs.getConnection v guild.
Proof.
  unfold VoiceUtilsTs.getConnection. rewrite connect_cache.
  destruct (VoiceUtilsTs.connect channel options v).1 as [d|e].
  - split; [apply lookup_insert_eq|].
    intros guild Hg. now apply lookup_insert_ne.
  - now split.
Qed.

(** X7: [disconnect] asks the platform to destroy the connection and
    leaves the cache alone: after a [connect] and a [disconnect] of the
    dispatcher it returned, [getConnection] still gives that dispatcher,
    whose connection is now among those destroyed, whether the platform's
    destroy returned or threw.  Disconnecting the dispatcher and
    disconnecting its connection are the same. *)
Theorem disconnect_keeps_entry (channel : VoiceUtilsTs.DMChannel)
    (o : VoiceUtilsTs.JoinOptions) (v v' : VoiceUtilsTs.VoiceUtils)
    (d : VoiceUtilsTs.StreamDispatcher) (gone : list nat)
    (throws : nat -> option Eff.Error) :
  VoiceUtilsTs.connect channel (Some o) v = (Eff.Returned d, v') ->
  let s := {| VoiceDisconnect.utils := v'; VoiceDisconnect.destroyed := gone;
              VoiceDisconnect.destroy_throws := throws |} in
  let s' := (VoiceDisconnect.disconnect (inr d) s).2 in
  VoiceUtilsTs.getConnection (VoiceDisconnect.utils s')
    (VoiceUtilsTs.channel_id channel) = Some d
  /\ VoiceDisconnect.destroyed s'
     = (gone ++ [VoiceUtilsTs.conn_id (VoiceUtilsTs.voiceConnection d)])%list
  /\ VoiceDisconnect.disconnect (inl (VoiceUtilsTs.voiceConnection d)) s
     = VoiceDisconnect.disconnect (inr d) s.
Proof.
  intros H s s'.
  pose proof (connect_cache channel (Some o) v) as C. rewrite H in C.
  cbn [fst snd] in C.
  repeat split. subst s' s.
  cbn [VoiceDisconnect.disconnect VoiceDisconnect.destroy snd VoiceDisconnect.utils].
  unfold VoiceUtilsTs.getConnection. rewrite C. apply lookup_insert_eq.
Qed.

Lemma disconnect_keeps_entry_witness :
  let s := {| VoiceDisconnect.utils := VoiceInputs.joined;
              VoiceDisconnect.destroyed := [];
              VoiceDisconnect.destroy_throws := fun _ => None |} in
  let s' := (VoiceDisconnect.disconnect (inr VoiceInputs.first_dispatcher) s).2 in
  VoiceUtilsTs.getConnection (VoiceDisconnect.utils s')
    (VoiceUtilsTs.channel_id VoiceInputs.lobby) = Some VoiceInputs.first_dispatcher
  /\ VoiceDisconnect.destroyed s'
     = ([] ++ [VoiceUtilsTs.conn_id
                 (VoiceUtilsTs.voiceConnection VoiceInputs.first_dispatcher)])%list
  /\ VoiceDisconnect.disconnect
       (inl (VoiceUtilsTs.voiceConnection VoiceInputs.first_dispatcher)) s
     = VoiceDisconnect.disconnect (inr VoiceInputs.first_dispatcher) s.
Proof.
  apply (disconnect_keeps_entry VoiceInputs.lobby VoiceInputs.empty_options
           VoiceInputs.fresh VoiceInputs.joined VoiceInputs.first_dispatcher []
           (fun _ => None)).
  reflexivity.
Defined.

Section RegistryMore.

Import Eff PlayerTs PlayerMore RegistryWords.

Lemma get_extractor_None name l :
  get_extractor name l = None <-> ~ In name l.*1.
Proof.
  induction l as [|[n x] l IH]; cbn [get_extractor fmap list_fmap fst In]; [tauto|].
  destruct (String.eqb_spec n name) as [->|Hn].
  - split; [discriminate | intros H; exfalso; apply H; now left].
  - rewrite IH. tauto.
Qed.

Lemma get_map_set name e l : get_extractor name (map_set name e l) = Some e.
Proof.
  induction l as [|[n x] l IH]; cbn [map_set get_extractor].
  - now rewrite String.eqb_refl.
  - destruct (String.eqb_spec n name) as [->|Hn]; cbn [get_extractor].
    + now rewrite String.eqb_refl.
    + destruct (String.eqb_spec n name); [contradiction | exact IH].
Qed.

Lemma get_map_set_other name other e l :
  other <> name -> get_extractor other (map_set name e l) = get_extractor other l.
Proof.
  intros Hne. induction l as [|[n x] l IH]; cbn [map_set get_extractor].
  - destruct (String.eqb_spec name other); [congruence | reflexivity].
  - destruct (String.eqb_spec n name) as [->|Hn]; cbn [get_extractor].
    + destruct (String.eqb_spec name other); [congruence | reflexivity].
    + now rewrite IH.
Qed.

Lemma map_set_absent name e l :
  get_extractor name l = None -> map_set name e l = (l ++ [(name, e)])%list.
Proof.
  induction l as [|[n x] l IH]; cbn [map_set get_extractor]; [reflexivity|].
  destruct (String.eqb n name); [discriminate|].
  intros H. now rewrite IH.
Qed.

Lemma map_set_present name e l :
  get_extractor name l <> None -> (map_set name e l).*1 = l.*1.
Proof.
  induction l as [|[n x] l IH]; cbn [map_set get_extractor]; [congruence|].
  destruct (String.eqb n name); [reflexivity|].
  intros H. cbn [fmap list_fmap fst]. f_equal. now apply IH.
Qed.

Lemma map_delete_absent name l :
  get_extractor name l = None -> map_delete name l = l.
Proof.
  induction l as [|[n x] l IH]; cbn [map_delete get_extractor]; [reflexivity|].
  destruct (String.eqb n name); [discriminate|].
  intros H. now rewrite IH.
Qed.

Lemma map_delete_app name l k :
  map_delete name (l ++ k) = (map_delete name l ++ map_delete name k)%list.
Proof.
  induction l as [|[n x] l IH]; [reflexivity|].
  cbn [app map_delete]. destruct (String.eqb n name); [exact IH|].
  cbn [app]. now rewrite IH.
Qed.

Lemma get_map_delete name l : get_extractor name (map_delete name l) = None.
Proof.
  induction l as [|[n x] l IH]; cbn [map_delete get_extractor]; [reflexivity|].
  destruct (String.eqb n name) eqn:E; [exact IH|].
  cbn [get_extractor]. now rewrite E.
Qed.

Lemma get_map_delete_other name other l :
  other <> name -> get_extractor other (map_delete name l) = get_extractor other l.
Proof.
  intros Hne. induction l as [|[n x] l IH]; cbn [map_delete get_extractor]; [reflexivity|].
  destruct (String.eqb_spec n name) as [->|Hn]; cbn [get_extractor].
  - destruct (String.eqb_spec name other); [congruence | exact IH].
  - now rewrite IH.
Qed.

Lemma map_delete_sublist name l : sublist (map_delete name l).*1 l.*1.
Proof.
  induction l as [|[n x] l IH]; cbn [map_delete fmap list_fmap fst]; [constructor|].
  destruct (String.eqb n name); cbn [fmap list_fmap fst]; now constructor.
Qed.

Lemma with_extractors_same p : with_extractors p (extractors p) = p.
Proof. now destruct p. Qed.

Lemma map_set_NoDup name e l : NoDup l.*1 -> NoDup (map_set name e l).*1.
Proof.
  intros H. destruct (get_extractor name l) as [x|] eqn:E.
  - rewrite map_set_present; [exact H | congruence].
  - rewrite (map_set_absent _ _ _ E), fmap_app. cbn [fmap list_fmap fst].
    apply NoDup_app. split; [exact H|]. split; [|apply NoDup_singleton].
    intros y Hy ->%list_elem_of_singleton.
    apply get_extractor_None in E. apply E. now apply list_elem_of_In.
Qed.

Lemma deleteQueue_absent destroy p guild :
  getQueue (deleteQueue destroy p guild).2 guild = None.
Proof.
  unfold deleteQueue, getQueue. cbn [snd with_queues queues].
  apply lookup_delete_eq.
Qed.

End RegistryMore.

(** X8: [use] either registers the extractor it returns or changes nothing:
    when it returns, the collection holds the returned extractor under some
    name; when it throws (no name, an object without [validate] or
    [getInfo], no object), the player is as before. *)
Theorem use_registers_or_changes_nothing (p : PlayerTs.Player) (name : string)
    (x : PlayerMore.ExtractorInput) (force : bool) :
  match (PlayerMore.use p name x force).1 with
  | Eff.Returned m =>
      exists key,
        PlayerTs.get_extractor key
          (PlayerTs.extractors (PlayerMore.use p name x force).2) = Some m
  | Eff.Thrown _ => (PlayerMore.use p name x force).2 = p
  end.
Proof.
  unfold PlayerMore.use.
  destruct (String.eqb name EmptyString); [reflexivity|].
  assert (R : match
      (match x with
       | PlayerMore.Instance e =>
           (Eff.Returned e,
            PlayerMore.with_extractors p
              (PlayerMore.map_set name e (PlayerTs.extractors p)))
       | PlayerMore.Plain has_validate has_getInfo model_name model =>
           if has_validate && has_getInfo
           then (Eff.Returned model,
                 PlayerMore.with_extractors p
                   (PlayerMore.map_set model_name model (PlayerTs.extractors p)))
           else (Eff.Thrown
                   (Eff.PlayerError "Invalid extractor data!" "INVALID_EXTRACTOR"), p)
       | PlayerMore.Nothing =>
           (Eff.Thrown
              (Eff.TypeError
                 "Cannot read properties of undefined (reading 'validate')"), p)
       end : Eff.Outcome PlayerTs.ExtractorModel * PlayerTs.Player)
    with
    | (Eff.Returned m, p') =>
        exists key, PlayerTs.get_extractor key (PlayerTs.extractors p') = Some m
    | (Eff.Thrown _, p') => p' = p
    end).
  { destruct x as [e|hv hg n m|]; [| |reflexivity].
    - exists name. apply get_map_set.
    - destruct (hv && hg); [|reflexivity]. exists n. apply get_map_set. }
  destruct (PlayerTs.get_extractor name (PlayerTs.extractors p)) as [existing|] eqn:E.
  - destruct force.
    + destruct x as [e|hv hg n m|]; [exact R | | exact R].
      destruct (hv && hg); exact R.
    + exists name. exact E.
  - destruct x as [e|hv hg n m|]; [exact R | | exact R].
    destruct (hv && hg); exact R.
Qed.

(** X9: registering an [ExtractorModel] instance under a name: [use]
    returns, and the name then leads to what it returned, which is the
    instance given whenever [force] is set or the name was free; no other
    name is affected; a free name goes to the end of the iteration order
    and a taken one keeps its place. *)
Theorem use_instance_lookup (p : PlayerTs.Player) (name : string)
    (e : PlayerTs.ExtractorModel) (force : bool) :
  name <> EmptyString ->
  let r := PlayerMore.use p name (PlayerMore.Instance e) force in
  (exists m,
     r.1 = Eff.Returned m
     /\ PlayerTs.get_extractor name (PlayerTs.extractors r.2) = Some m
     /\ (force = true \/ PlayerTs.get_extractor name (PlayerTs.extractors p) = None
         -> m = e))
  /\ (forall other,
        other <> name ->
        PlayerTs.get_extractor other (PlayerTs.extractors r.2)
        = PlayerTs.get_extractor other (PlayerTs.extractors p))
  /\ RegistryWords.names r.2
     = match PlayerTs.get_extractor name (PlayerTs.extractors p) with
       | Some _ => RegistryWords.names p
       | None => (RegistryWords.names p ++ [name])%list
       end.
Proof.
  intros Hn r. subst r. unfold PlayerMore.use, RegistryWords.names.
  destruct (String.eqb_spec name EmptyString) as [|_]; [contradiction|].
  destruct (PlayerTs.get_extractor name (PlayerTs.extractors p)) as [existing|] eqn:E.
  - destruct force; cbn [fst snd PlayerMore.with_extractors PlayerTs.extractors].
    + split; [exists e; split; [reflexivity|]; split; [apply get_map_set | easy]|].
      split; [intros other Ho; now apply get_map_set_other|].
      apply map_set_present. congruence.
    + split; [exists existing; split; [reflexivity|]; split; [exact E|]|].
      { intros [|]; discriminate. }
      now split.
  - assert (forall f : bool,
      (match f with | _ =>
         (Eff.Returned e,
          PlayerMore.with_extractors p
            (PlayerMore.map_set name e (PlayerTs.extractors p))) end)
      = (Eff.Returned e,
         PlayerMore.with_extractors p
           (PlayerMore.map_set name e (PlayerTs.extractors p)))) as H
      by now intros [].
    destruct force; cbn [fst snd PlayerMore.with_extractors PlayerTs.extractors].
    all: split; [exists e; split; [reflexivity|]; split; [apply get_map_set | easy]|].
    all: split; [intros other Ho; now apply get_map_set_other|].
    all: rewrite (map_set_absent _ _ _ E), fmap_app; reflexivity.
Qed.

Lemma use_instance_lookup_witness :
  let r := PlayerMore.use (SearchInputs.player_with [("first", SearchInputs.R1)])
             "second" (PlayerMore.Instance SearchInputs.R2) false in
  (exists m,
     r.1 = Eff.Returned m
     /\ PlayerTs.get_extractor "second" (PlayerTs.extractors r.2) = Some m
     /\ (false = true
         \/ PlayerTs.get_extractor "second"
              (PlayerTs.extractors
                 (SearchInputs.player_with [("first", SearchInputs.R1)])) = None
         -> m = SearchInputs.R2))
  /\ (forall other,
        other <> "second" ->
        PlayerTs.get_extractor other (PlayerTs.extractors r.2)
        = PlayerTs.get_extractor other
            (PlayerTs.extractors
               (SearchInputs.player_with [("first", SearchInputs.R1)])))
  /\ RegistryWords.names r.2
     = match PlayerTs.get_extractor "second"
               (PlayerTs.extractors
                  (SearchInputs.player_with [("first", SearchInputs.R1)])) with
       | Some _ =>
           RegistryWords.names (SearchInputs.player_with [("first", SearchInputs.R1)])
       | None =>
           (RegistryWords.names
              (SearchInputs.player_with [("first", SearchInputs.R1)]) ++ ["second"])%list
       end.
Proof.
  apply (use_instance_lookup
           (SearchInputs.player_with [("first", SearchInputs.R1)])
           "second" SearchInputs.R2 false).
  discriminate.
Defined.

(** X10: [unuse] undoes [use]: an instance registered under a free name and
    then removed is returned by [unuse], and the player is as it was before
    the two calls. *)
Theorem unuse_after_use (p : PlayerTs.Player) (name : string)
    (e : PlayerTs.ExtractorModel) (force : bool) :
  name <> EmptyString ->
  PlayerTs.get_extractor name (PlayerTs.extractors p) = None ->
  PlayerMore.unuse (PlayerMore.use p name (PlayerMore.Instance e) force).2 name
  = (Eff.Returned e, p).
Proof.
  intros Hn E. unfold PlayerMore.use.
  destruct (String.eqb_spec name EmptyString) as [|_]; [contradiction|].
  rewrite E.
  assert ((match force with | _ =>
             (Eff.Returned e,
              PlayerMore.with_extractors p
                (PlayerMore.map_set name e (PlayerTs.extractors p))) end).2
          = PlayerMore.with_extractors p
              (PlayerMore.map_set name e (PlayerTs.extractors p))) as ->
    by now destruct force.
  unfold PlayerMore.unuse.
  cbn [PlayerMore.with_extractors PlayerTs.extractors].
  rewrite get_map_set. f_equal.
  rewrite (map_set_absent _ _ _ E), map_delete_app, (map_delete_absent _ _ E).
  cbn [PlayerMore.map_delete]. rewrite String.eqb_refl, app_nil_r.
  now destruct p.
Qed.

Lemma unuse_after_use_witness :
  PlayerMore.unuse
    (PlayerMore.use (SearchInputs.player_with [("first", SearchInputs.R1)])
       "second" (PlayerMore.Instance SearchInputs.R2) true).2 "second"
  = (Eff.Returned SearchInputs.R2,
     SearchInputs.player_with [("first", SearchInputs.R1)]).
Proof.
  apply (unuse_after_use (SearchInputs.player_with [("first", SearchInputs.R1)])
           "second" SearchInputs.R2 true).
  - discriminate.
  - reflexivity.
Defined.

(** X11: [unuse] returns the extractor registered under the name and
    removes it, so that a second [unuse] of the name throws; for a name
    that is not registered it throws and changes nothing.  Other names keep
    their extractors, and the order of those that remain is kept. *)
Theorem unuse_removes (p : PlayerTs.Player) (name : string) :
  match (PlayerMore.unuse p name).1 with
  | Eff.Returned m =>
      PlayerTs.get_extractor name (PlayerTs.extractors p) = Some m
      /\ PlayerTs.get_extractor name
           (PlayerTs.extractors (PlayerMore.unuse p name).2) = None
      /\ exists err,
           PlayerMore.unuse (PlayerMore.unuse p name).2 name
           = (Eff.Thrown err, (PlayerMore.unuse p name).2)
  | Eff.Thrown _ =>
      PlayerTs.get_extractor name (PlayerTs.extractors p) = None
      /\ (PlayerMore.unuse p name).2 = p
  end
  /\ (forall other,
        other <> name ->
        PlayerTs.get_extractor other
          (PlayerTs.extractors (PlayerMore.unuse p name).2)
        = PlayerTs.get_extractor other (PlayerTs.extractors p))
  /\ sublist (RegistryWords.names (PlayerMore.unuse p name).2) (RegistryWords.names p).
Proof.
  unfold PlayerMore.unuse, RegistryWords.names.
  destruct (PlayerTs.get_extractor name (PlayerTs.extractors p)) as [prev|] eqn:E;
    cbn [fst snd PlayerMore.with_extractors PlayerTs.extractors].
  - split; [|split].
    + split; [reflexivity|]. split; [apply get_map_delete|].
      rewrite get_map_delete. eauto.
    + intros other Ho. now apply get_map_delete_other.
    + apply map_delete_sublist.
  - split; [now split|]. split; [reflexivity|]. reflexivity.
Qed.

(** X12: the names of the collection stay distinct through [use] and
    [unuse], whatever the arguments and the outcome. *)
Theorem names_stay_distinct (p : PlayerTs.Player) (name : string)
    (x : PlayerMore.ExtractorInput) (force : bool) :
  NoDup (RegistryWords.names p) ->
  NoDup (RegistryWords.names (PlayerMore.use p name x force).2)
  /\ NoDup (RegistryWords.names (PlayerMore.unuse p name).2).
Proof.
  intros H. unfold RegistryWords.names in *. split.
  - unfold PlayerMore.use.
    destruct (String.eqb name EmptyString); [exact H|].
    assert (NoDup (PlayerTs.extractors
        (match x with
         | PlayerMore.Instance e =>
             (Eff.Returned e,
              PlayerMore.with_extractors p
                (PlayerMore.map_set name e (PlayerTs.extractors p)))
         | PlayerMore.Plain has_validate has_getInfo model_name model =>
             if has_validate && has_getInfo
             then (Eff.Returned model,
                   PlayerMore.with_extractors p
                     (PlayerMore.map_set model_name model (PlayerTs.extractors p)))
             else (Eff.Thrown
                     (Eff.PlayerError "Invalid extractor data!" "INVALID_EXTRACTOR"), p)
         | PlayerMore.Nothing =>
             (Eff.Thrown
                (Eff.TypeError
                   "Cannot read properties of undefined (reading 'validate')"), p)
         end : Eff.Outcome PlayerTs.ExtractorModel * PlayerTs.Player).2).*1) as R.
    { destruct x as [e|hv hg n m|]; [| |exact H].
      - now apply map_set_NoDup.
      - destruct (hv && hg); [now apply map_set_NoDup | exact H]. }
    destruct (PlayerTs.get_extractor name (PlayerTs.extractors p)) as [existing|];
      [destruct force|]; solve [exact R | exact H].
  - eapply sublist_NoDup; [exact H|].
    unfold PlayerMore.unuse.
    destruct (PlayerTs.get_extractor name (PlayerTs.extractors p));
      [apply map_delete_sublist | reflexivity].
Qed.

Lemma names_stay_distinct_witness :
  NoDup (RegistryWords.names
           (PlayerMore.use (SearchInputs.player_with [("first", SearchInputs.R1)])
              "first" (PlayerMore.Plain true true "first" SearchInputs.R2) true).2)
  /\ NoDup (RegistryWords.names
              (PlayerMore.unuse (SearchInputs.player_with [("first", SearchInputs.R1)])
                 "first").2).
Proof.
  apply (names_stay_distinct (SearchInputs.player_with [("first", SearchInputs.R1)])
           "first" (PlayerMore.Plain true true "first" SearchInputs.R2) true).
  apply NoDup_singleton.
Defined.

(** X13: the queue [createQueue] returns is the one [resolveQueue] finds,
    by the guild and by the queue object itself; the queues of other guilds
    are not touched, and every queue of the table stays registered under
    its own guild. *)
Theorem createQueue_resolves (p : PlayerTs.Player) (guild : string)
    (o : PlayerTs.PlayerOptions) :
  RegistryWords.keyed_by_guild p ->
  let r := PlayerTs.createQueue p guild o in
  RegistryWords.keyed_by_guild r.1.2
  /\ PlayerMore.resolveQueue r.1.2 (inl guild) = Some r.1.1
  /\ PlayerMore.resolveQueue r.1.2 (inr r.1.1) = Some r.1.1
  /\ forall other,
       other <> guild -> PlayerTs.getQueue r.1.2 other = PlayerTs.getQueue p other.
Proof.
  intros K r. subst r.
  unfold PlayerMore.resolveQueue, RegistryWords.keyed_by_guild in *.
  pose proof (createQueue_registers p guild o) as R.
  unfold PlayerTs.createQueue, PlayerTs.getQueue in *.
  destruct (PlayerTs.queues p !! guild) as [existing|] eqn:E;
    cbn [fst snd PlayerTs.with_queues PlayerTs.queues PlayerTs.dmGuild] in *.
  - split; [exact K|]. split; [exact E|]. split; [|reflexivity].
    now rewrite (K _ _ E).
  - split; [|split; [exact R | split; [exact R|]]].
    + intros key q. destruct (decide (key = guild)) as [->|Hk].
      * rewrite lookup_insert_eq. now intros [= <-].
      * rewrite lookup_insert_ne by congruence. apply K.
    + intros other Ho. now apply lookup_insert_ne.
Qed.

Lemma createQueue_resolves_witness :
  let r := PlayerTs.createQueue PlayerInputs.new_player "872345"
             RegistryWords.no_member in
  RegistryWords.keyed_by_guild r.1.2
  /\ PlayerMore.resolveQueue r.1.2 (inl "872345") = Some r.1.1
  /\ PlayerMore.resolveQueue r.1.2 (inr r.1.1) = Some r.1.1
  /\ forall other,
       other <> "872345" ->
       PlayerTs.getQueue r.1.2 other = PlayerTs.getQueue PlayerInputs.new_player other.
Proof.
  apply (createQueue_resolves PlayerInputs.new_player "872345" RegistryWords.no_member).
  intros key q H. unfold PlayerTs.getQueue, PlayerInputs.new_player in H.
  cbn [PlayerTs.queues] in H. now rewrite lookup_empty in H.
Defined.

(** X14: [deleteQueue] returns what [getQueue] gave for the guild (nothing
    when there was no queue) and afterwards the guild has no queue, whether
    the queue's [destroy] returns or throws and whatever it does to the
    table; a second [deleteQueue] returns nothing and changes nothing. *)
Theorem deleteQueue_forgets
    (destroy destroy' :
       PlayerTs.Queue -> gmap string PlayerTs.Queue ->
       Eff.Outcome unit * gmap string PlayerTs.Queue)
    (p : PlayerTs.Player) (guild : string) :
  (PlayerMore.deleteQueue destroy p guild).1 = PlayerTs.getQueue p guild
  /\ PlayerTs.getQueue (PlayerMore.deleteQueue destroy p guild).2 guild = None
  /\ PlayerMore.deleteQueue destroy' (PlayerMore.deleteQueue destroy p guild).2 guild
     = (None, (PlayerMore.deleteQueue destroy p guild).2).
Proof.
  assert (G : PlayerTs.getQueue (PlayerMore.deleteQueue destroy p guild).2 guild = None)
    by apply deleteQueue_absent.
  split; [reflexivity|]. split; [exact G|].
  generalize dependent (PlayerMore.deleteQueue destroy p guild).2. intros p' G.
  unfold PlayerMore.deleteQueue. rewrite G. f_equal.
  unfold PlayerTs.getQueue in G. rewrite delete_id by exact G.
  now destruct p'.
Qed.

(** X15: a queue object kept after its queue was deleted resolves to the
    queue created later for the same guild, a different instance. *)
Theorem stale_queue_resolves_to_new
    (destroy :
       PlayerTs.Queue -> gmap string PlayerTs.Queue ->
       Eff.Outcome unit * gmap string PlayerTs.Queue)
    (p : PlayerTs.Player) (guild : string) (o1 o2 : PlayerTs.PlayerOptions) :
  PlayerTs.getQueue p guild = None ->
  let first := PlayerTs.createQueue p guild o1 in
  let deleted := PlayerMore.deleteQueue destroy first.1.2 guild in
  let second := PlayerTs.createQueue deleted.2 guild o2 in
  deleted.1 = Some first.1.1
  /\ PlayerTs.queue_id second.1.1 = S (PlayerTs.queue_id first.1.1)
  /\ PlayerMore.resolveQueue second.1.2 (inr first.1.1) = Some second.1.1.
Proof.
  intros E first deleted second.
  assert (D : PlayerTs.getQueue deleted.2 guild = None)
    by apply (deleteQueue_absent destroy).
  assert (F : first = (
    {| PlayerTs.queue_id := PlayerTs.constructed p; PlayerTs.dmGuild := guild;
       PlayerTs.queue_options := first.2; PlayerTs.queue_metadata := PlayerTs.metadata o1 |},
    PlayerTs.with_queues p (<[guild := first.1.1]> (PlayerTs.queues p))
      (S (PlayerTs.constructed p)), first.2)).
  { subst first. unfold PlayerTs.createQueue. unfold PlayerTs.getQueue in E.
    now rewrite E. }
  split; [|split].
  - subst deleted. unfold PlayerMore.deleteQueue. cbn [fst].
    apply createQueue_registers.
  - subst second. unfold PlayerTs.createQueue at 1.
    unfold PlayerTs.getQueue in D. rewrite D. cbn [fst snd PlayerTs.queue_id].
    subst deleted. unfold PlayerMore.deleteQueue.
    cbn [snd PlayerTs.with_queues PlayerTs.constructed].
    rewrite F. reflexivity.
  - unfold PlayerMore.resolveQueue.
    replace (PlayerTs.dmGuild first.1.1) with guild by now rewrite F.
    apply createQueue_registers.
Qed.

Lemma stale_queue_resolves_to_new_witness :
  let first := PlayerTs.createQueue PlayerInputs.new_player "872345"
                 RegistryWords.no_member in
  let deleted := PlayerMore.deleteQueue RegistryWords.removing first.1.2 "872345" in
  let second := PlayerTs.createQueue deleted.2 "872345" RegistryWords.no_member in
  deleted.1 = Some first.1.1
  /\ PlayerTs.queue_id second.1.1 = S (PlayerTs.queue_id first.1.1)
  /\ PlayerMore.resolveQueue second.1.2 (inr first.1.1) = Some second.1.1.
Proof.
  apply (stale_queue_resolves_to_new RegistryWords.removing PlayerInputs.new_player
           "872345" RegistryWords.no_member RegistryWords.no_member).
  reflexivity.
Defined.

Section EmitMore.

Import Eff PlayerTs.

Lemma call_listeners_outcome (args : list string) (ls : list Listener) :
  (Forall (fun l => listener_throws l args = None) ls ->
   (call_listeners ls args).1 = Returned true)
  /\ (forall err,
        (call_listeners ls args).1 = Thrown err ->
        exists l, In l ls /\ listener_throws l args = Some err).
Proof.
  induction ls as [|l ls [IH1 IH2]]; cbn [call_listeners].
  - split; [reflexivity | discriminate].
  - destruct (listener_throws l args) as [e|] eqn:T.
    + split.
      * intros H. inversion H; congruence.
      * intros err [= <-]. exists l. split; [now left | exact T].
    + destruct (call_listeners ls args) as [r effects]. cbn [fst] in *. split.
      * intros H. inversion H. now apply IH1.
      * intros err E. destruct (IH2 err E) as (l' & Hl' & T').
        exists l'. split; [now right | exact T'].
Qed.

End EmitMore.

(** X16: on a player whose required events include the error event (as
    they do from the constructor on), [emit] throws only what a listener
    of the event throws: when none of them throws on the arguments it
    returns whether the event has a listener, and what comes out of it
    otherwise is what one of them threw.  The emitter's own throw for an
    error event without listener does not occur. *)
Theorem emit_throws_only_from_listeners (p : PlayerTs.Player) (eventName : string)
    (args : list string) :
  PlayerTs.includes (PlayerTs.requiredEvents p) "error" = true ->
  (Forall (fun l => PlayerTs.listener_throws l args = None)
     (PlayerTs.listeners_of p eventName) ->
   (PlayerTs.emit p eventName args).1
   = Eff.Returned (match PlayerTs.listeners_of p eventName with
                   | [] => false
                   | _ :: _ => true
                   end))
  /\ (forall err,
        (PlayerTs.emit p eventName args).1 = Eff.Thrown err ->
        exists l,
          In l (PlayerTs.listeners_of p eventName)
          /\ PlayerTs.listener_throws l args = Some err).
Proof.
  intros Hreq. unfold PlayerTs.emit, PlayerTs.super_emit.
  destruct (PlayerTs.listeners_of p eventName) as [|l ls] eqn:E.
  - rewrite (includes_eventNames_false _ _ E), andb_true_r.
    destruct (PlayerTs.includes (PlayerTs.requiredEvents p) eventName) eqn:I;
      [split; [reflexivity | discriminate]|].
    destruct (String.eqb_spec eventName "error") as [->|_]; [congruence|].
    split; [reflexivity | discriminate].
  - rewrite includes_eventNames_true, andb_false_r by (rewrite E; discriminate).
    apply call_listeners_outcome.
Qed.

Lemma emit_throws_only_from_listeners_witness :
  (Forall (fun l => PlayerTs.listener_throws l ["boom"] = None)
     (PlayerTs.listeners_of
        (PlayerInputs.listening PlayerInputs.new_player "error" (PlayerInputs.returning 7))
        "error") ->
   (PlayerTs.emit
      (PlayerInputs.listening PlayerInputs.new_player "error" (PlayerInputs.returning 7))
      "error" ["boom"]).1
   = Eff.Returned
       (match PlayerTs.listeners_of
                (PlayerInputs.listening PlayerInputs.new_player "error"
                   (PlayerInputs.returning 7)) "error" with
        | [] => false
        | _ :: _ => true
        end))
  /\ (forall err,
        (PlayerTs.emit
           (PlayerInputs.listening PlayerInputs.new_player "error"
              (PlayerInputs.returning 7))
           "error" ["boom"]).1 = Eff.Thrown err ->
        exists l,
          In l (PlayerTs.listeners_of
                  (PlayerInputs.listening PlayerInputs.new_player "error"
                     (PlayerInputs.returning 7)) "error")
          /\ PlayerTs.listener_throws l ["boom"] = Some err).
Proof.
  apply (emit_throws_only_from_listeners
           (PlayerInputs.listening PlayerInputs.new_player "error"
              (PlayerInputs.returning 7))
           "error" ["boom"]).
  reflexivity.
Defined.

Section ResultMore.

Import Eff PlayerTs SearchInputs ResultWords.

Lemma imap_tracks_playlist {A : Type} (f : A -> TrackTs.RawTrackData)
    (pl : option nat) (fresh : nat -> nat) (items : list A) :
  (forall m, TrackTs.raw_playlist (f m) = pl) ->
  Forall (fun t => TrackTs.playlist t = pl)
    (imap (fun i m => TrackTs._patch (fresh i) (f m)) items).
Proof.
  intros H. apply Forall_forall. intros t Ht.
  apply elem_of_lookup_imap in Ht as (i & m & -> & _). apply H.
Qed.

Lemma linked_empty w : linked empty_result w.
Proof. split; [constructor | discriminate]. Qed.

Lemma linked_single t w :
  TrackTs.playlist t = None -> linked {| playlist := None; tracks := [t] |} w.
Proof. intros H. split; [now repeat constructor | discriminate]. Qed.

Lemma linked_flat ts w :
  Forall (fun t => TrackTs.playlist t = None) ts ->
  linked {| playlist := None; tracks := ts |} w.
Proof. intros H. split; [exact H | discriminate]. Qed.

(** The two-phase construction: the playlist with no tracks, the tracks
    that refer to it, the back-fill. *)
Lemma linked_collection {A : Type} (i : PlaylistInitData)
    (f : nat -> A -> TrackTs.RawTrackData) (items : list A) w res w' :
  (forall r m, TrackTs.raw_playlist (f r m) = Some r) ->
  (r <- new_Playlist i ;;
   ts <- mapM (fun m => new_Track (f r m)) items ;;
   set_tracks r ts ;;;
   ret {| playlist := Some r; tracks := ts |}) w = (Returned res, w') ->
  linked res w'.
Proof.
  intros Hf. unfold bind, new_Playlist, ret, set_tracks, modify.
  rewrite mapM_new_Track. cbn [next_id playlists log].
  intros [= <- <-]. split; cbn [playlist tracks playlists].
  - apply imap_tracks_playlist. intros m. apply Hf.
  - intros r [= <-]. eexists. split.
    + rewrite lookup_alter_eq, lookup_insert_eq. reflexivity.
    + reflexivity.
Qed.

Lemma extractor_result_linked o d w res w' :
  extractor_result o d w = (Returned res, w') -> linked res w'.
Proof.
  unfold extractor_result. destruct (playlist_data d) as [i|].
  - intros H.
    apply (linked_collection i
             (fun r m => timed_data o (Some r) (TrackTs.raw_source (item m)) m)
             (data d) w); [reflexivity|].
    rewrite <- H. unfold bind, new_Playlist, ret. reflexivity.
  - unfold bind, ret. rewrite mapM_new_Track. intros [= <- <-].
    apply linked_flat, imap_tracks_playlist. reflexivity.
Qed.

Lemma try_extractor_linked name e q o w res w' :
  try_extractor name e q o w = (Returned (Some res), w') -> linked res w'.
Proof.
  unfold try_extractor, bind, call_handle.
  destruct (handle e q) as [d|err]; [|discriminate].
  destruct (has_items d) as [d'|]; [|discriminate].
  destruct (extractor_result o d' _) as [[r|err] w1] eqn:X; [|discriminate].
  unfold ret. intros [= <- <-]. eapply extractor_result_linked, X.
Qed.

Lemma chain_linked exts q o : forall w res w',
  chain exts q o w = (Returned (Some res), w') -> linked res w'.
Proof.
  induction exts as [|[name e] rest IH]; intros w res w'; cbn [chain];
    [discriminate|].
  destruct (blockExtractor o); [discriminate|].
  rewrite bind_call_validate. destruct (validate e q); cbn [negb]; [|apply IH].
  unfold bind.
  destruct (try_extractor name e q o _) as [[[r|]|err] w1] eqn:T;
    [| apply IH | discriminate].
  intros [= <- <-]. eapply try_extractor_linked, T.
Qed.

Lemma named_phase_linked p q o w res w' :
  named_phase p q o w = (Returned (Some res), w') -> linked res w'.
Proof.
  unfold named_phase. destruct (engine_of o) as [qt|name]; [discriminate|].
  destruct (get_extractor name (extractors p)) as [e|]; [|discriminate].
  rewrite bind_call_validate. destruct (validate e q); cbn [negb].
  - apply try_extractor_linked.
  - intros [= <- <-]. apply linked_empty.
Qed.

(** The tracks of the loop over the SoundCloud links: those of the infos
    that resolve, in order; a link whose info is rejected is passed
    over. *)
Lemma soundcloud_tracks_resolved s o urls : forall w,
  soundcloud_tracks s o urls w
  = (Returned
       (imap (fun i m =>
                TrackTs._patch (next_id w + i)
                  (timed_data o None (Some "soundcloud") m))
          (resolved_infos s urls)),
     {| next_id := next_id w + List.length (resolved_infos s urls);
        playlists := playlists w; log := log w |}).
Proof.
  unfold resolved_infos.
  induction urls as [|u urls IH]; intros w; cbn [soundcloud_tracks omap list_omap].
  - unfold ret. destruct w. cbn [imap List.length next_id playlists log].
    now rewrite Nat.add_0_r.
  - destruct (caught (soundcloud_getSongInfo s u)) as [info|]; [|apply IH].
    unfold bind at 1. unfold new_Track at 1. unfold bind at 1. rewrite IH.
    unfold ret. cbn [next_id playlists log imap List.length].
    rewrite Nat.add_0_r. do 2 f_equal.
    + f_equal. apply imap_ext. intros i y _. cbn [compose]. f_equal. lia.
    + lia.
Qed.

Lemma builtin_linked s qt q o w res w' :
  builtin s qt q o w = (Returned res, w') -> linked res w'.
Proof.
  assert (forall urls w0,
            (r <- soundcloud_tracks s o urls ;;
             ret {| playlist := None; tracks := r |}) w0 = (Returned res, w') ->
            linked res w') as Hsc.
  { intros urls w0. unfold bind. rewrite soundcloud_tracks_resolved.
    unfold ret. intros [= <- <-].
    apply linked_flat, imap_tracks_playlist. reflexivity. }
  destruct qt as [[]|name]; cbn [builtin];
    try (unfold ret; intros [= <- <-]; now apply linked_empty).
  - destruct (caught (ytdlGetInfo s q)) as [info|];
      [|unfold ret; intros [= <- <-]; now apply linked_empty].
    unfold bind, new_Track, ret. intros [= <- <-]. now apply linked_single.
  - destruct (caught (YouTube_search s q)) as [videos|];
      [|unfold ret; intros [= <- <-]; now apply linked_empty].
    unfold bind, ret. rewrite mapM_new_Track. intros [= <- <-].
    apply linked_flat, imap_tracks_playlist. reflexivity.
  - destruct (caught (YouTube_getPlaylist s q)) as [ytpl|];
      [|unfold ret; intros [= <- <-]; now apply linked_empty].
    cbv zeta.
    apply (linked_collection _
             (fun r video =>
                with_context video (TrackTs.raw_duration video) (requestedBy o)
                  (Some r) (Some "youtube"))).
    reflexivity.
  - destruct (QueryResolver_resolve s q);
      try (destruct (soundcloud_search s q) as [reason|[[|u urls]|]]);
      try (unfold ret; intros [= <- <-]; now apply linked_empty); apply Hsc.
  - destruct (QueryResolver_resolve s q);
      try (destruct (soundcloud_search s q) as [reason|[[|u urls]|]]);
      try (unfold ret; intros [= <- <-]; now apply linked_empty); apply Hsc.
  - destruct (caught (soundcloud_getPlaylist s q)) as [d|];
      [|unfold ret; intros [= <- <-]; now apply linked_empty].
    apply (linked_collection _
             (fun r song => timed_data o (Some r) (Some "soundcloud") song)).
    reflexivity.
  - destruct (caught (Spotify_getData_song s q)) as [info|];
      [|unfold ret; intros [= <- <-]; now apply linked_empty].
    unfold bind, new_Track, ret. intros [= <- <-]. now apply linked_single.
  - destruct (caught (Spotify_getData s q)) as [d|];
      [|unfold ret; intros [= <- <-]; now apply linked_empty].
    apply (linked_collection _
             (fun r m => timed_data o (Some r) (Some "spotify") m)).
    reflexivity.
  - destruct (caught (Spotify_getData s q)) as [d|];
      [|unfold ret; intros [= <- <-]; now apply linked_empty].
    apply (linked_collection _
             (fun r m => timed_data o (Some r) (Some "spotify") m)).
    reflexivity.
Qed.

End ResultMore.

(** X17: the result of a search for a text and the world after it agree:
    every track of the result refers to the playlist of the result, or to
    none when the result has none, and the [Playlist] instance of the
    result holds exactly the tracks of the result, whichever extractor or
    built-in branch produced it. *)
Theorem search_result_linked (p : PlayerTs.Player) (s : PlayerTs.Sources)
    (q : string) (o : PlayerTs.SearchOptions) (w w' : PlayerTs.World)
    (res : PlayerTs.PlayerSearchResult) :
  PlayerTs.search p s (PlayerTs.QueryString q) (Some o) w = (Eff.Returned res, w') ->
  ResultWords.linked res w'.
Proof.
  unfold PlayerTs.search, PlayerTs.registered_phase, Eff.bind.
  destruct (PlayerTs.named_phase p q o w) as [[[r|]|err] w1] eqn:N;
    [| |discriminate].
  - unfold Eff.ret. intros [= <- <-]. eapply named_phase_linked, N.
  - destruct (PlayerTs.chain (PlayerTs.extractors p) q o w1) as [[[r|]|err] w2] eqn:C;
      [| |discriminate].
    + unfold Eff.ret. intros [= <- <-]. eapply chain_linked, C.
    + apply builtin_linked.
Qed.

Lemma search_result_linked_witness :
  ResultWords.linked
    (ResultWords.result_of
       (PlayerTs.search (SearchInputs.player_with []) SearchInputs.fetch_fails
          (PlayerTs.QueryString "https://youtube.com/playlist")
          (Some SearchInputs.automatic) SearchInputs.blank))
    (PlayerTs.search (SearchInputs.player_with []) SearchInputs.fetch_fails
       (PlayerTs.QueryString "https://youtube.com/playlist")
       (Some SearchInputs.automatic) SearchInputs.blank).2.
Proof.
  apply (search_result_linked (SearchInputs.player_with []) SearchInputs.fetch_fails
           "https://youtube.com/playlist" SearchInputs.automatic SearchInputs.blank).
  reflexivity.
Defined.

(** X18: when [searchEngine] is a string and no member of [QueryType] (the
    code tells the two apart by the type of the value), the source
    libraries play no part in the search: it is the same whatever they
    would answer, and when the registered extractors give nothing the
    result is empty. *)
Theorem search_named_engine_ignores_sources (p : PlayerTs.Player)
    (s s' : PlayerTs.Sources) (q : string) (o : PlayerTs.SearchOptions)
    (w : PlayerTs.World) (name : string) :
  PlayerTs.searchEngine o = Some (PlayerTs.Named name) ->
  PlayerTs.search p s (PlayerTs.QueryString q) (Some o) w
  = PlayerTs.search p s' (PlayerTs.QueryString q) (Some o) w
  /\ forall w1,
       PlayerTs.registered_phase p q o w = (Eff.Returned None, w1) ->
       PlayerTs.search p s (PlayerTs.QueryString q) (Some o) w
       = (Eff.Returned PlayerTs.empty_result, w1).
Proof.
  intros H.
  assert (Q : forall s0, PlayerTs.query_type s0 q o = PlayerTs.Named name)
    by (intros s0; unfold PlayerTs.query_type, PlayerTs.engine_of; now rewrite H).
  split.
  - unfold PlayerTs.search, Eff.bind.
    destruct (PlayerTs.registered_phase p q o w) as [[[r|]|err] w1];
      [reflexivity | | reflexivity].
    now rewrite !Q.
  - intros w1 R. rewrite (search_after_registered _ _ _ _ _ _ R), Q. reflexivity.
Qed.

Lemma search_named_engine_ignores_sources_witness :
  PlayerTs.search (SearchInputs.player_with [("R1", SearchInputs.R1)])
    SearchInputs.offline (PlayerTs.QueryString "a song")
    (Some (SearchInputs.naming "R1")) SearchInputs.blank
  = PlayerTs.search (SearchInputs.player_with [("R1", SearchInputs.R1)])
      SearchInputs.fetch_fails (PlayerTs.QueryString "a song")
      (Some (SearchInputs.naming "R1")) SearchInputs.blank
  /\ forall w1,
       PlayerTs.registered_phase (SearchInputs.player_with [("R1", SearchInputs.R1)])
         "a song" (SearchInputs.naming "R1") SearchInputs.blank
       = (Eff.Returned None, w1) ->
       PlayerTs.search (SearchInputs.player_with [("R1", SearchInputs.R1)])
         SearchInputs.offline (PlayerTs.QueryString "a song")
         (Some (SearchInputs.naming "R1")) SearchInputs.blank
       = (Eff.Returned PlayerTs.empty_result, w1).
Proof.
  apply (search_named_engine_ignores_sources
           (SearchInputs.player_with [("R1", SearchInputs.R1)])
           SearchInputs.offline SearchInputs.fetch_fails "a song"
           (SearchInputs.naming "R1") SearchInputs.blank "R1").
  reflexivity.
Defined.

(** X19: a rejection of a registered extractor's [handle] is not absorbed:
    when the extractors before it give nothing and it passes the check,
    the search is rejected with the extractor's reason; no extractor after
    it is used, and no track or playlist is constructed. *)
Theorem search_handle_rejection_propagates (p : PlayerTs.Player)
    (s : PlayerTs.Sources) (q : string) (o : PlayerTs.SearchOptions)
    (w : PlayerTs.World) (pre post : list (string * PlayerTs.ExtractorModel))
    (name : string) (e : PlayerTs.ExtractorModel) (err : Eff.Error) :
  PlayerTs.extractors p = (pre ++ (name, e) :: post)%list ->
  SearchInputs.names_no_extractor p o ->
  PlayerTs.blockExtractor o = false ->
  Forall (fun ne => SearchInputs.fruitless q ne.2) pre ->
  PlayerTs.validate e q = true ->
  PlayerTs.handle e q = Eff.Thrown err ->
  PlayerTs.search p s (PlayerTs.QueryString q) (Some o) w
  = (Eff.Thrown err,
     SearchInputs.logged_all
       (SearchInputs.uses q pre ++ [PlayerTs.Validated name; PlayerTs.Handled name]) w).
Proof.
  intros Hexts Hnone Hb Hpre Hv Hh.
  unfold PlayerTs.search, PlayerTs.registered_phase.
  unfold Eff.bind at 1 2. rewrite (named_phase_none _ _ _ _ Hnone), Hexts.
  rewrite (chain_fruitless pre _ _ _ _ Hb Hpre).
  rewrite (chain_handle_rejects name e post q o _ err Hb Hv Hh).
  now rewrite logged_all_logged_all.
Qed.

Lemma search_handle_rejection_propagates_witness :
  PlayerTs.search
    (SearchInputs.player_with
       [("R1", SearchInputs.R1); ("broken", ResultWords.broken);
        ("R2", SearchInputs.R2)])
    SearchInputs.offline (PlayerTs.QueryString "a song")
    (Some SearchInputs.automatic) SearchInputs.blank
  = (Eff.Thrown (Eff.Rejection "ECONNRESET"),
     SearchInputs.logged_all
       (SearchInputs.uses "a song" [("R1", SearchInputs.R1)]
        ++ [PlayerTs.Validated "broken"; PlayerTs.Handled "broken"])
       SearchInputs.blank).
Proof.
  apply (search_handle_rejection_propagates
           (SearchInputs.player_with
              [("R1", SearchInputs.R1); ("broken", ResultWords.broken);
               ("R2", SearchInputs.R2)])
           SearchInputs.offline "a song" SearchInputs.automatic SearchInputs.blank
           [("R1", SearchInputs.R1)] [("R2", SearchInputs.R2)] "broken"
           ResultWords.broken (Eff.Rejection "ECONNRESET")).
  - reflexivity.
  - exact I.
  - reflexivity.
  - constructor; [|constructor]. right. eexists. split; reflexivity.
  - reflexivity.
  - reflexivity.
Defined.

(** X20: a SoundCloud text search tolerates the links it cannot load: the
    tracks of the result are those of the song infos that resolve, in the
    order of the links found, and a link whose info is rejected is passed
    over without ending the search. *)
Theorem search_soundcloud_partial (p : PlayerTs.Player) (s : PlayerTs.Sources)
    (q : string) (o : PlayerTs.SearchOptions) (w : PlayerTs.World)
    (urls : list string) :
  PlayerTs.blockExtractor o = true ->
  PlayerTs.searchEngine o = Some (PlayerTs.Engine PlayerTs.SOUNDCLOUD_SEARCH) ->
  PlayerTs.QueryResolver_resolve s q <> PlayerTs.SOUNDCLOUD_TRACK ->
  PlayerTs.soundcloud_search s q = PlayerTs.Resolved (Some urls) ->
  PlayerTs.search p s (PlayerTs.QueryString q) (Some o) w
  = (Eff.Returned
       {| PlayerTs.playlist := None;
          PlayerTs.tracks :=
            imap (fun i m =>
                    TrackTs._patch (PlayerTs.next_id w + i)
                      (PlayerTs.timed_data o None (Some "soundcloud") m))
              (ResultWords.resolved_infos s urls) |},
     {| PlayerTs.next_id :=
          PlayerTs.next_id w + List.length (ResultWords.resolved_infos s urls);
        PlayerTs.playlists := PlayerTs.playlists w;
        PlayerTs.log := PlayerTs.log w |}).
Proof.
  intros Hb He Hr Hs.
  assert (R : PlayerTs.registered_phase p q o w = (Eff.Returned None, w)).
  { unfold PlayerTs.registered_phase, Eff.bind.
    rewrite named_phase_none
      by (unfold SearchInputs.names_no_extractor, PlayerTs.engine_of; now rewrite He).
    now apply chain_blocked. }
  rewrite (search_after_registered _ _ _ _ _ _ R).
  unfold PlayerTs.query_type, PlayerTs.engine_of. rewrite He.
  cbn [default from_option Datatypes.id PlayerTs.builtin]. unfold Datatypes.id.
  cbn [PlayerTs.builtin]. rewrite Hs.
  assert (E : forall A (x y : A),
            match PlayerTs.QueryResolver_resolve s q with
            | PlayerTs.SOUNDCLOUD_TRACK => x
            | _ => y
            end = y)
    by (intros A x y; now destruct (PlayerTs.QueryResolver_resolve s q)).
  rewrite E.
  destruct urls as [|u urls].
  - destruct w. unfold ResultWords.resolved_infos, Eff.ret.
    cbn [omap list_omap imap List.length PlayerTs.next_id PlayerTs.playlists
         PlayerTs.log].
    now rewrite Nat.add_0_r.
  - unfold Eff.bind. now rewrite soundcloud_tracks_resolved.
Qed.

Lemma search_soundcloud_partial_witness :
  PlayerTs.search (SearchInputs.player_with [("R2", SearchInputs.R2)])
    ResultWords.flaky (PlayerTs.QueryString "a song")
    (Some ResultWords.soundcloud_only) SearchInputs.blank
  = (Eff.Returned
       {| PlayerTs.playlist := None;
          PlayerTs.tracks :=
            imap (fun i m =>
                    TrackTs._patch (PlayerTs.next_id SearchInputs.blank + i)
                      (PlayerTs.timed_data ResultWords.soundcloud_only None
                         (Some "soundcloud") m))
              (ResultWords.resolved_infos ResultWords.flaky ["a"; "b"; "c"]) |},
     {| PlayerTs.next_id :=
          PlayerTs.next_id SearchInputs.blank
          + List.length (ResultWords.resolved_infos ResultWords.flaky ["a"; "b"; "c"]);
        PlayerTs.playlists := PlayerTs.playlists SearchInputs.blank;
        PlayerTs.log := PlayerTs.log SearchInputs.blank |}).
Proof.
  apply (search_soundcloud_partial (SearchInputs.player_with [("R2", SearchInputs.R2)])
           ResultWords.flaky "a song" ResultWords.soundcloud_only SearchInputs.blank
           ["a"; "b"; "c"]).
  - reflexivity.
  - reflexivity.
  - discriminate.
  - reflexivity.
Defined.

Section ProtocolMore.

Import Eff PlayerTs SearchInputs ResultWords.

Lemma get_extractor_In name l e : get_extractor name l = Some e -> In (name, e) l.
Proof.
  induction l as [|[n x] l IH]; cbn [get_extractor]; [discriminate|].
  destruct (String.eqb_spec n name) as [->|_].
  - intros [= ->]. now left.
  - intros H. right. now apply IH.
Qed.

Lemma extractor_result_log o d w : log (extractor_result o d w).2 = log w.
Proof.
  destruct (extractor_result_returns o d w) as (r & w' & E & L & _).
  now rewrite E.
Qed.

Lemma try_extractor_log name e q o w :
  log (try_extractor name e q o w).2 = (log w ++ [Handled name])%list.
Proof.
  unfold try_extractor, bind, call_handle.
  destruct (handle e q) as [d|err]; [|reflexivity].
  destruct (has_items d) as [d'|]; [|reflexivity].
  pose proof (extractor_result_log o d' (logged (Handled name) w)) as L.
  destruct (extractor_result o d' _) as [[r|err] w1]; exact L.
Qed.

Lemma chain_log exts q o : forall w,
  exists evs,
    log (chain exts q o w).2 = (log w ++ evs)%list /\ vetted exts q evs.
Proof.
  induction exts as [|[name e] rest IH]; intros w; cbn [chain].
  - exists []. split; [now rewrite app_nil_r | intros n []].
  - destruct (blockExtractor o);
      [exists []; split; [now rewrite app_nil_r | intros n []]|].
    rewrite bind_call_validate. destruct (validate e q) eqn:V; cbn [negb].
    + unfold bind.
      pose proof (try_extractor_log name e q o (logged_all [Validated name] w)) as L.
      destruct (try_extractor name e q o _) as [[[r|]|err] w1]; cbn [snd] in L.
      * exists [Validated name; Handled name]. split.
        -- unfold ret. cbn [snd]. rewrite L. cbn [log logged_all].
           now rewrite <- app_assoc.
        -- intros n [H|[[= <-]|[]]]; [discriminate|]. exists e. split; [now left | exact V].
      * destruct (IH w1) as (evs & E & Hv).
        exists ([Validated name; Handled name] ++ evs)%list. split.
        -- rewrite E, L. cbn [log logged_all]. now rewrite <- !app_assoc.
        -- intros n [H|[[= <-]|H]]; [discriminate | exists e; split; [now left | exact V] |].
           destruct (Hv n H) as (e' & He' & V'). exists e'. split; [now right | exact V'].
      * exists [Validated name; Handled name]. split.
        -- cbn [snd]. rewrite L. cbn [log logged_all]. now rewrite <- app_assoc.
        -- intros n [H|[[= <-]|[]]]; [discriminate|]. exists e. split; [now left | exact V].
    + destruct (IH (logged_all [Validated name] w)) as (evs & E & Hv).
      exists (Validated name :: evs). split.
      * rewrite E. cbn [log logged_all]. now rewrite <- app_assoc.
      * intros n [H|H]; [discriminate|].
        destruct (Hv n H) as (e' & He' & V'). exists e'. split; [now right | exact V'].
Qed.

Lemma named_phase_log p q o w :
  exists evs,
    log (named_phase p q o w).2 = (log w ++ evs)%list
    /\ vetted (extractors p) q evs.
Proof.
  unfold named_phase. destruct (engine_of o) as [qt|name];
    [exists []; split; [now rewrite app_nil_r | intros n []]|].
  destruct (get_extractor name (extractors p)) as [e|] eqn:G;
    [|exists []; split; [now rewrite app_nil_r | intros n []]].
  rewrite bind_call_validate. destruct (validate e q) eqn:V; cbn [negb].
  - exists [Validated name; Handled name]. split.
    + rewrite try_extractor_log. cbn [log logged_all]. now rewrite <- app_assoc.
    + intros n [H|[[= <-]|[]]]; [discriminate|].
      exists e. split; [now apply get_extractor_In | exact V].
  - exists [Validated name]. split; [reflexivity|].
    intros n [H|[]]. discriminate.
Qed.

Lemma builtin_log s qt q o w : log (builtin s qt q o w).2 = log w.
Proof.
  destruct (builtin_returns s qt q o w) as (r & w' & E & L). now rewrite E.
Qed.

Lemma vetted_app exts q evs evs' :
  vetted exts q evs -> vetted exts q evs' -> vetted exts q (evs ++ evs').
Proof.
  intros H H' n Hn. apply in_app_or in Hn as [Hn|Hn]; [now apply H | now apply H'].
Qed.

End ProtocolMore.

(** X21: a search calls [handle] only on registered extractors whose
    [validate] accepts the query: whatever the outcome of the search, the
    uses it adds to those made before contain no [handle] of another
    extractor. *)
Theorem search_handles_only_validated (p : PlayerTs.Player) (s : PlayerTs.Sources)
    (q : string) (o : PlayerTs.SearchOptions) (w : PlayerTs.World) :
  exists evs,
    PlayerTs.log (PlayerTs.search p s (PlayerTs.QueryString q) (Some o) w).2
    = (PlayerTs.log w ++ evs)%list
    /\ ResultWords.vetted (PlayerTs.extractors p) q evs.
Proof.
  unfold PlayerTs.search, PlayerTs.registered_phase, Eff.bind.
  destruct (named_phase_log p q o w) as (evs & E & Hv).
  destruct (PlayerTs.named_phase p q o w) as [[[r|]|err] w1]; cbn [snd] in E.
  - exists evs. now split.
  - destruct (chain_log (PlayerTs.extractors p) q o w1) as (evs' & E' & Hv').
    exists (evs ++ evs')%list. split; [|now apply vetted_app].
    destruct (PlayerTs.chain (PlayerTs.extractors p) q o w1) as [[[r|]|err] w2];
      cbn [snd] in E'.
    + unfold Eff.ret. cbn [snd]. now rewrite E', E, <- app_assoc.
    + now rewrite builtin_log, E', E, <- app_assoc.
    + cbn [snd]. now rewrite E', E, <- app_assoc.
  - exists evs. now split.
Qed.
